(** * Seat booking server (server.js): model and verification

    A shallow embedding of the Express handlers of [server.js] and of the
    expiry timers they arm.  The global [seats] object is a finite map from
    seat ids to records, the set of pending [setTimeout] callbacks is a
    finite map from timer handles to the seat id captured by the closure,
    and every handler is a function from the store before the request to the
    store after it together with the HTTP response.

    Conventions.
    - [Date.now()] is an argument of every handler that calls it ([now]).
    - [Number(req.params.id)] is the argument [id : Z]; a value that is not
      the key of a seat (NaN, a fraction, a number outside 1..10) is an
      absent key of the map.
    - A handler runs to completion before the next one starts (one event
      loop), so a run of the server is a sequence of [Op]s. *)

From stdpp Require Import gmap strings list fin_maps pretty.

Local Open Scope Z_scope.

(** ** Configuration *)

(** [const LOCK_TTL = 60_000] *)
Definition LOCK_TTL : Z := 60000.

(** [const TOTAL_SEATS = 10] *)
Definition TOTAL_SEATS : Z := 10.

(** ** Data model *)

(** ['available' | 'locked' | 'booked'] *)
Inductive Status := Available | Locked | Booked.

#[global] Instance Status_eq_dec : EqDecision Status.
Proof. solve_decision. Defined.

(** A [NodeJS.Timeout] handle returned by [setTimeout]. *)
Definition Handle := nat.

(** [{ status, lockedBy?, lockExpiresAt?, timeoutId? }]: an optional
    property is [None] when the object does not have it (or holds
    [undefined]). *)
Record Seat := mkSeat {
  status : Status;
  lockedBy : option string;
  lockExpiresAt : option Z;
  timeoutId : option Handle
}.

#[global] Instance Seat_eq_dec : EqDecision Seat.
Proof. solve_decision. Defined.

(** The object literal [{ status: 'available' }]. *)
Definition availableSeat : Seat := mkSeat Available None None None.

(** The object literal [{ status: 'booked' }]. *)
Definition bookedSeat : Seat := mkSeat Booked None None None.

(** The object literal [{ status: 'locked', lockedBy: user, lockExpiresAt }]. *)
Definition lockedSeat (user : string) (expires : Z) : Seat :=
  mkSeat Locked (Some user) (Some expires) None.

(** A pending [setTimeout] callback: the [seatId] its closure captured and
    the delay it was scheduled with. *)
Record Timer := mkTimer {
  timerSeat : Z;
  timerDelay : Z
}.

#[global] Instance Timer_eq_dec : EqDecision Timer.
Proof. solve_decision. Defined.

(** The process state: the [seats] object, the callbacks that are scheduled
    and neither fired nor cleared, and the next handle [setTimeout] gives. *)
Record State := mkState {
  seats : gmap Z Seat;
  timers : gmap Handle Timer;
  nextHandle : Handle
}.

(** [for (let i = 1; i <= TOTAL_SEATS; i += 1) seats[i] = { status: 'available' }] *)
Definition initSeats : gmap Z Seat :=
  foldl (fun m i => <[i := availableSeat]> m) ∅ (seqZ 1 TOTAL_SEATS).

Definition initState : State := mkState initSeats ∅ 0%nat.

(** ** Responses *)

Inductive Body :=
  | Message (message : string)
  | View (view : gmap Z Status).

(** [res.status(code).json(body)] *)
Record Response := mkResponse {
  code : Z;
  body : Body
}.

(** [`${id}`] for an integer id below 10^21 in absolute value, which the
    template literal prints in decimal.  (From 10^21 on it prints the
    exponent form, e.g. 1e+21: the message texts below are those of the
    code for [-10^21 < id < 10^21] only.) *)
Definition showId (id : Z) : string := pretty id.

Definition msgNotFound (id : Z) : string :=
  "Seat " +:+ showId id +:+ " does not exist.".
Definition msgAlreadyBooked (id : Z) : string :=
  "Seat " +:+ showId id +:+ " is already booked.".
Definition msgAlreadyLocked (id : Z) : string :=
  "Seat " +:+ showId id +:+ " is already locked. Try another seat.".
Definition msgLocked (id : Z) : string :=
  "Seat " +:+ showId id +:+ " locked successfully. Confirm within 1 minute.".
Definition msgNotLocked : string :=
  "Seat is not locked and cannot be booked".
Definition msgExpired : string :=
  "Lock expired. Please lock the seat again.".
Definition msgForbidden : string :=
  "Seat locked by another user.".
Definition msgBooked (id : Z) : string :=
  "Seat " +:+ showId id +:+ " booked successfully!".
Definition msgAlreadyAvailable (id : Z) : string :=
  "Seat " +:+ showId id +:+ " already available.".
Definition msgCannotUnlock (id : Z) : string :=
  "Seat " +:+ showId id +:+ " is booked; cannot unlock.".
Definition msgCleared (id : Z) : string :=
  "Seat " +:+ showId id +:+ " lock cleared.".

(** ** Helpers *)

(** [seat.lockExpiresAt && seat.lockExpiresAt <= now]: a missing property
    and the number 0 are both falsy. *)
Definition expiredAt (seat : Seat) (now : Z) : bool :=
  match lockExpiresAt seat with
  | Some e => negb (e =? 0) && (e <=? now)
  | None => false
  end.

(** [seat.status === 'locked' && seat.lockExpiresAt && seat.lockExpiresAt <= now] *)
Definition lockedAndExpired (seat : Seat) (now : Z) : bool :=
  bool_decide (status seat = Locked) && expiredAt seat now.

(** [seats[id] = seat] *)
Definition setSeat (id : Z) (seat : Seat) (st : State) : State :=
  mkState (<[id := seat]> (seats st)) (timers st) (nextHandle st).

(** [clearSeatTimer(seats[id])]: the argument is the object the store holds
    at [id], so the write to [seat.timeoutId] is seen through [seats[id]].
    [clearTimeout] of a handle that fired or was cleared does nothing. *)
Definition clearSeatTimer (id : Z) (st : State) : State :=
  match seats st !! id with
  | Some seat =>
      match timeoutId seat with
      | Some h =>
          mkState
            (<[id := mkSeat (status seat) (lockedBy seat) (lockExpiresAt seat) None]>
               (seats st))
            (delete h (timers st))
            (nextHandle st)
      | None => st
      end
  | None => st
  end.

(** [armSeatExpiry(seatId)]: clears the timer of the record now stored at
    [seatId], schedules the callback with delay [LOCK_TTL + 50] and stores
    the handle in the record.  [None] is the TypeError of the write to
    [seat.timeoutId] when [seats[seatId]] is undefined. *)
Definition armSeatExpiry (seatId : Z) (st : State) : option State :=
  let st1 := clearSeatTimer seatId st in
  match seats st1 !! seatId with
  | Some seat =>
      let h := nextHandle st1 in
      Some (mkState
              (<[seatId := mkSeat (status seat) (lockedBy seat) (lockExpiresAt seat) (Some h)]>
                 (seats st1))
              (<[h := mkTimer seatId (LOCK_TTL + 50)]> (timers st1))
              (S h))
  | None => None
  end.

(** The body of the callback given to [setTimeout], run at [now] for the
    captured [seatId].  [None] is the TypeError of reading [.status] of an
    undefined [seats[seatId]]. *)
Definition expiryCallback (seatId : Z) (now : Z) (st : State) : option State :=
  match seats st !! seatId with
  | Some seat =>
      if lockedAndExpired seat now
      then Some (setSeat seatId availableSeat st)
      else Some st
  | None => None
  end.

(** The timer [h] fires at [now]: it leaves the pending set and its callback
    runs.  A handle that is not pending (never armed, fired or cleared) does
    not fire: the state is unchanged. *)
Definition fireTimer (h : Handle) (now : Z) (st : State) : option State :=
  match timers st !! h with
  | Some t =>
      expiryCallback (timerSeat t) now
        (mkState (seats st) (delete h (timers st)) (nextHandle st))
  | None => Some st
  end.

(** ** Handlers *)

(** [String(req.query.user || 'anonymous')] for an absent or a string-valued
    query parameter. *)
Definition requestUser (q : option string) : string :=
  match q with
  | Some u => if bool_decide (u = "") then "anonymous" else u
  | None => "anonymous"
  end.

(** [GET /seats] *)
Definition listSeats (st : State) : State * Response :=
  (st, mkResponse 200 (View (status <$> seats st))).

(** [POST /lock/:id].  [seats[id]] is read again after the lazy release;
    [None] stands for a TypeError (reading a property of undefined). *)
Definition lock (id : Z) (user : string) (now : Z) (st : State)
  : option (State * Response) :=
  match seats st !! id with
  | None => Some (st, mkResponse 404 (Message (msgNotFound id)))
  | Some seat =>
      (* If locked but expired, release first *)
      let st1 :=
        if lockedAndExpired seat now
        then setSeat id availableSeat (clearSeatTimer id st)
        else st in
      match seats st1 !! id with
      | None => None
      | Some cur =>
          match status cur with
          | Booked => Some (st1, mkResponse 409 (Message (msgAlreadyBooked id)))
          | Locked => Some (st1, mkResponse 423 (Message (msgAlreadyLocked id)))
          | Available =>
              (* Acquire lock *)
              let lockExpiresAt := now + LOCK_TTL in
              st2 ← armSeatExpiry id (setSeat id (lockedSeat user lockExpiresAt) st1);
              Some (st2, mkResponse 200 (Message (msgLocked id)))
          end
      end
  end.

(** [POST /confirm/:id] *)
Definition confirm (id : Z) (user : string) (now : Z) (st : State)
  : State * Response :=
  match seats st !! id with
  | None => (st, mkResponse 404 (Message (msgNotFound id)))
  | Some seat =>
      if negb (bool_decide (status seat = Locked))
      then (st, mkResponse 400 (Message msgNotLocked))
      else if expiredAt seat now
      then (setSeat id availableSeat (clearSeatTimer id st),
            mkResponse 408 (Message msgExpired))
      else if negb (bool_decide (lockedBy seat = Some user))
      then (st, mkResponse 403 (Message msgForbidden))
      else (setSeat id bookedSeat (clearSeatTimer id st),
            mkResponse 200 (Message (msgBooked id)))
  end.

(** [POST /unlock/:id] *)
Definition unlock (id : Z) (st : State) : State * Response :=
  match seats st !! id with
  | None => (st, mkResponse 404 (Message (msgNotFound id)))
  | Some seat =>
      match status seat with
      | Available => (st, mkResponse 200 (Message (msgAlreadyAvailable id)))
      | Booked => (st, mkResponse 409 (Message (msgCannotUnlock id)))
      | Locked =>
          (setSeat id availableSeat (clearSeatTimer id st),
           mkResponse 200 (Message (msgCleared id)))
      end
  end.

(** ** Runs of the server *)

(** One event of the event loop: a request, or a pending timer firing.  The
    clock reading of each event is part of the event and is not assumed to
    grow along a run. *)
Inductive Op :=
  | OpList
  | OpLock (id : Z) (user : string) (now : Z)
  | OpConfirm (id : Z) (user : string) (now : Z)
  | OpUnlock (id : Z)
  | OpFire (h : Handle) (now : Z).

Definition exec (op : Op) (st : State) : option (State * option Response) :=
  match op with
  | OpList => let '(st', r) := listSeats st in Some (st', Some r)
  | OpLock id user now => '(st', r) ← lock id user now st; Some (st', Some r)
  | OpConfirm id user now => let '(st', r) := confirm id user now st in Some (st', Some r)
  | OpUnlock id => let '(st', r) := unlock id st in Some (st', Some r)
  | OpFire h now => st' ← fireTimer h now st; Some (st', None)
  end.

(** The state after a sequence of events. *)
Fixpoint execAll (ops : list Op) (st : State) : option State :=
  match ops with
  | [] => Some st
  | op :: ops' => '(st', _) ← exec op st; execAll ops' st'
  end.

(** The states the server can be in. *)
Inductive reachable : State → Prop :=
  | reachable_init : reachable initState
  | reachable_step st op st' r :
      reachable st → exec op st = Some (st', r) → reachable st'.

(** The seat [id] is locked by [user] with a lock taken at [t0]. *)
Definition holdsLock (st : State) (id : Z) (user : string) (t0 : Z) : Prop :=
  ∃ seat, seats st !! id = Some seat
          ∧ status seat = Locked
          ∧ lockedBy seat = Some user
          ∧ lockExpiresAt seat = Some (t0 + LOCK_TTL).

(** The status of seat [id], when the seat exists. *)
Definition statusOf (st : State) (id : Z) : option Status :=
  status <$> seats st !! id.

(** Every seat record has [lockedBy] and [lockExpiresAt] exactly when its
    status is [Locked]. *)
Definition shapeOk (st : State) : Prop :=
  ∀ id seat, seats st !! id = Some seat →
    (is_Some (lockedBy seat) ↔ status seat = Locked)
    ∧ (is_Some (lockExpiresAt seat) ↔ status seat = Locked).

(** Every pending timer is the one stored in the record of its seat, and
    that seat is locked. *)
Definition timersOk (st : State) : Prop :=
  ∀ h t, timers st !! h = Some t →
    (h < nextHandle st)%nat
    ∧ ∃ seat, seats st !! timerSeat t = Some seat
              ∧ status seat = Locked
              ∧ timeoutId seat = Some h.

(** The seat an event is addressed to: the [:id] of a request, the captured
    [seatId] of a pending timer. *)
Definition target (op : Op) (st : State) : option Z :=
  match op with
  | OpList => None
  | OpLock id _ _ | OpConfirm id _ _ | OpUnlock id => Some id
  | OpFire h _ => timerSeat <$> timers st !! h
  end.

(** [st'] differs from [st] at most in the record of the seat [tgt]. *)
Definition frame (tgt : option Z) (st st' : State) : Prop :=
  dom (seats st') = dom (seats st)
  ∧ ∀ j, tgt ≠ Some j → seats st' !! j = seats st !! j.

(** The state a successful lock leaves: the new record with the handle of
    the timer armed for it, on top of the store [st1] the lock was acquired
    in. *)
Definition acquired (id : Z) (user : string) (now : Z) (st1 : State) : State :=
  mkState
    (<[id := mkSeat Locked (Some user) (Some (now + LOCK_TTL)) (Some (nextHandle st1))]>
       (seats st1))
    (<[nextHandle st1 := mkTimer id (LOCK_TTL + 50)]> (timers st1))
    (S (nextHandle st1)).

(** The answer of a successful lock. *)
Definition okLocked (id : Z) : Response :=
  mkResponse 200 (Message (msgLocked id)).

(** A reading of [Date.now()]: milliseconds elapsed since the epoch. *)
Definition clockReading (t : Z) : Prop := 0 ≤ t.

(** The reclaim condition of the scheduled expiry, for the callback of the
    timer [armed]: the status is still Locked, the lock the record stores is
    the one this timer was armed with, and [lockExpiresAt ≤ now].  The code
    keeps no separate epoch counter: what a record stores of the timer armed
    with its lock is the handle in [timeoutId], written by [armSeatExpiry]
    right after the record is created, so the stored handle stands for the
    lock's epoch. *)
Definition specReclaims (armed : Handle) (seat : Seat) (now : Z) : Prop :=
  status seat = Locked
  ∧ timeoutId seat = Some armed
  ∧ ∃ e, lockExpiresAt seat = Some e ∧ e ≤ now.

(** What one event does to the record [seat] of seat [id], read off the
    handlers branch by branch: the event, its answer and the record it
    leaves. *)
Inductive seatStep (st : State) (id : Z) (seat : Seat)
  : Op → option Response → Seat → Prop :=
  | step_same op r :
      seatStep st id seat op r seat
  | step_lock_free user now :
      status seat = Available →
      seatStep st id seat (OpLock id user now) (Some (okLocked id))
        (mkSeat Locked (Some user) (Some (now + LOCK_TTL)) (Some (nextHandle st)))
  | step_lock_lapsed user now :
      status seat = Locked → expiredAt seat now = true →
      seatStep st id seat (OpLock id user now) (Some (okLocked id))
        (mkSeat Locked (Some user) (Some (now + LOCK_TTL)) (Some (nextHandle st)))
  | step_confirm_lapsed user now :
      status seat = Locked → expiredAt seat now = true →
      seatStep st id seat (OpConfirm id user now)
        (Some (mkResponse 408 (Message msgExpired))) availableSeat
  | step_confirm user now :
      status seat = Locked → expiredAt seat now = false →
      lockedBy seat = Some user →
      seatStep st id seat (OpConfirm id user now)
        (Some (mkResponse 200 (Message (msgBooked id)))) bookedSeat
  | step_unlock :
      status seat = Locked →
      seatStep st id seat (OpUnlock id)
        (Some (mkResponse 200 (Message (msgCleared id)))) availableSeat
  | step_fire h now t :
      timers st !! h = Some t → timerSeat t = id →
      status seat = Locked → expiredAt seat now = true →
      seatStep st id seat (OpFire h now) None availableSeat.

(** An event that cannot end a lock of seat [id] held by [holder] until [e]:
    it is not an unlock of the seat, not a confirm of the seat by the
    holder, and its clock reading, when it reads one for this seat, is
    before [e]. *)
Definition keepsLock (id : Z) (holder : string) (e : Z) (op : Op) : Prop :=
  match op with
  | OpList => True
  | OpLock j _ now => j = id → now < e
  | OpConfirm j user now => j = id → now < e ∧ user ≠ holder
  | OpUnlock j => j ≠ id
  | OpFire _ now => now < e
  end.

(** A record stores a timer handle exactly when it is locked, and the
    handle is one [setTimeout] has given out. *)
Definition handleOk (st : State) : Prop :=
  ∀ id seat, seats st !! id = Some seat →
    (is_Some (timeoutId seat) ↔ status seat = Locked)
    ∧ ∀ h, timeoutId seat = Some h → (h < nextHandle st)%nat.

(** * Basic facts *)

Section Helpers.
Implicit Types (st : State) (id j : Z) (seat : Seat) (h : Handle).

Lemma expiredAt_spec seat now :
  expiredAt seat now = true
  ↔ ∃ e, lockExpiresAt seat = Some e ∧ e ≠ 0 ∧ e ≤ now.
Proof.
  unfold expiredAt. destruct (lockExpiresAt seat) as [e|]; split.
  - intros [H1 H2]%andb_true_iff. exists e.
    apply negb_true_iff, Z.eqb_neq in H1. apply Z.leb_le in H2. done.
  - intros (e' & [= <-] & H1 & H2). apply andb_true_iff. split.
    + by apply negb_true_iff, Z.eqb_neq.
    + by apply Z.leb_le.
  - done.
  - by intros (e & ? & _).
Qed.

Lemma expiredAt_false_lt seat now e :
  lockExpiresAt seat = Some e → now < e → expiredAt seat now = false.
Proof.
  intros He Hlt. unfold expiredAt. rewrite He.
  apply andb_false_iff. right. apply Z.leb_gt. lia.
Qed.

Lemma expiredAt_true_le seat now e :
  lockExpiresAt seat = Some e → e ≠ 0 → e ≤ now → expiredAt seat now = true.
Proof. intros. apply expiredAt_spec. eauto. Qed.

Lemma lockedAndExpired_spec seat now :
  lockedAndExpired seat now = true
  ↔ status seat = Locked ∧ ∃ e, lockExpiresAt seat = Some e ∧ e ≠ 0 ∧ e ≤ now.
Proof.
  unfold lockedAndExpired.
  rewrite andb_true_iff, bool_decide_eq_true, expiredAt_spec. done.
Qed.

Lemma seats_setSeat st id seat j :
  seats (setSeat id seat st) !! j
  = if decide (id = j) then Some seat else seats st !! j.
Proof. unfold setSeat. simpl. apply lookup_insert. Qed.

Lemma seats_clearSeatTimer st id j :
  seats (clearSeatTimer id st) !! j
  = if decide (id = j)
    then (λ s, mkSeat (status s) (lockedBy s) (lockExpiresAt s) None)
           <$> seats st !! id
    else seats st !! j.
Proof.
  unfold clearSeatTimer.
  destruct (seats st !! id) as [seat|] eqn:Hs.
  - destruct seat as [s u e [h|]]; simpl.
    + rewrite lookup_insert. by case_decide.
    + case_decide; subst; by rewrite ?Hs.
  - case_decide; subst; by rewrite ?Hs.
Qed.

Lemma nextHandle_clearSeatTimer st id :
  nextHandle (clearSeatTimer id st) = nextHandle st.
Proof.
  unfold clearSeatTimer. destruct (seats st !! id) as [[? ? ? [?|]]|]; done.
Qed.

Lemma timers_clearSeatTimer st id h :
  timers (clearSeatTimer id st) !! h
  = if bool_decide ((seats st !! id ≫= timeoutId) = Some h)
    then None else timers st !! h.
Proof.
  unfold clearSeatTimer.
  destruct (seats st !! id) as [[s u e [h'|]]|]; simpl; try done.
  rewrite lookup_delete. case_decide; case_bool_decide; congruence.
Qed.

Lemma timers_clearSeatTimer_Some st id h t :
  timers (clearSeatTimer id st) !! h = Some t →
  timers st !! h = Some t ∧ (seats st !! id ≫= timeoutId) ≠ Some h.
Proof.
  rewrite timers_clearSeatTimer. case_bool_decide; [done|]. eauto.
Qed.

(** The lazy release [clearSeatTimer(seat); seats[id] = x] as one write. *)
Lemma seats_release st id seat :
  seats (setSeat id seat (clearSeatTimer id st)) = <[id := seat]> (seats st).
Proof.
  apply map_eq. intros j. rewrite seats_setSeat, seats_clearSeatTimer.
  rewrite lookup_insert. by case_decide.
Qed.

Lemma armSeatExpiry_fresh st id user e :
  armSeatExpiry id (setSeat id (lockedSeat user e) st)
  = Some (mkState
            (<[id := mkSeat Locked (Some user) (Some e) (Some (nextHandle st))]>
               (seats st))
            (<[nextHandle st := mkTimer id (LOCK_TTL + 50)]> (timers st))
            (S (nextHandle st))).
Proof.
  unfold armSeatExpiry, clearSeatTimer, setSeat. simpl.
  rewrite !lookup_insert_eq. simpl. rewrite lookup_insert_eq. simpl.
  by rewrite insert_insert_eq.
Qed.
End Helpers.

(** * The handlers, case by case *)

Section HandlerCases.
Implicit Types (st : State) (id : Z) (seat : Seat) (user : string) (now : Z).

Lemma lock_not_found st id user now :
  seats st !! id = None →
  lock id user now st = Some (st, mkResponse 404 (Message (msgNotFound id))).
Proof. intros H. unfold lock. by rewrite H. Qed.

Lemma lock_available st id seat user now :
  seats st !! id = Some seat → status seat = Available →
  lock id user now st = Some (acquired id user now st, okLocked id).
Proof.
  intros Hs Hst. unfold lock. rewrite Hs.
  unfold lockedAndExpired. rewrite Hst. simpl. rewrite Hs, Hst.
  by rewrite armSeatExpiry_fresh.
Qed.

Lemma lock_booked st id seat user now :
  seats st !! id = Some seat → status seat = Booked →
  lock id user now st
  = Some (st, mkResponse 409 (Message (msgAlreadyBooked id))).
Proof.
  intros Hs Hst. unfold lock. rewrite Hs.
  unfold lockedAndExpired. rewrite Hst. simpl. by rewrite Hs, Hst.
Qed.

Lemma lock_held st id seat user now :
  seats st !! id = Some seat → status seat = Locked →
  expiredAt seat now = false →
  lock id user now st
  = Some (st, mkResponse 423 (Message (msgAlreadyLocked id))).
Proof.
  intros Hs Hst He. unfold lock. rewrite Hs.
  unfold lockedAndExpired. rewrite Hst, He. simpl. by rewrite Hs, Hst.
Qed.

Lemma lock_lapsed st id seat user now :
  seats st !! id = Some seat → status seat = Locked →
  expiredAt seat now = true →
  lock id user now st
  = Some (acquired id user now (setSeat id availableSeat (clearSeatTimer id st)),
          okLocked id).
Proof.
  intros Hs Hst He. unfold lock. rewrite Hs.
  unfold lockedAndExpired. rewrite Hst, He. simpl.
  rewrite lookup_insert_eq. simpl.
  by rewrite armSeatExpiry_fresh.
Qed.

(** [lock] always answers. *)
Lemma lock_total st id user now :
  ∃ st' r, lock id user now st = Some (st', r).
Proof.
  destruct (seats st !! id) as [seat|] eqn:Hs.
  - destruct (status seat) eqn:Hst.
    + erewrite lock_available by done. eauto.
    + destruct (expiredAt seat now) eqn:He.
      * erewrite lock_lapsed by done. eauto.
      * erewrite lock_held by done. eauto.
    + erewrite lock_booked by done. eauto.
  - rewrite lock_not_found by done. eauto.
Qed.

(** A 200 answer of [lock] means the lock was acquired, on the store
    itself or on the store after the lazy release. *)
Lemma lock_ok_inv st id user now st' r :
  lock id user now st = Some (st', r) → code r = 200 →
  r = okLocked id ∧
  ∃ st1, st' = acquired id user now st1
         ∧ (st1 = st ∨ st1 = setSeat id availableSeat (clearSeatTimer id st)).
Proof.
  intros Hl Hc.
  destruct (seats st !! id) as [seat|] eqn:Hs.
  - destruct (status seat) eqn:Hst.
    + erewrite lock_available in Hl by done. simplify_eq. eauto.
    + destruct (expiredAt seat now) eqn:He.
      * erewrite lock_lapsed in Hl by done. simplify_eq. eauto.
      * erewrite lock_held in Hl by done. by simplify_eq.
    + erewrite lock_booked in Hl by done. by simplify_eq.
  - rewrite lock_not_found in Hl by done. by simplify_eq.
Qed.

Lemma holdsLock_acquired st1 id user now :
  holdsLock (acquired id user now st1) id user now.
Proof.
  eexists. unfold acquired. simpl. rewrite lookup_insert_eq. done.
Qed.

Lemma lock_ok_holdsLock st id user now st' r :
  lock id user now st = Some (st', r) → code r = 200 →
  holdsLock st' id user now.
Proof.
  intros Hl Hc. destruct (lock_ok_inv _ _ _ _ _ _ Hl Hc) as (_ & st1 & -> & _).
  apply holdsLock_acquired.
Qed.


Lemma confirm_not_locked st id seat user now :
  seats st !! id = Some seat → status seat ≠ Locked →
  confirm id user now st = (st, mkResponse 400 (Message msgNotLocked)).
Proof.
  intros Hs Hst. unfold confirm. rewrite Hs.
  by rewrite bool_decide_eq_false_2.
Qed.

Lemma confirm_lapsed st id seat user now :
  seats st !! id = Some seat → status seat = Locked →
  expiredAt seat now = true →
  confirm id user now st
  = (setSeat id availableSeat (clearSeatTimer id st),
     mkResponse 408 (Message msgExpired)).
Proof.
  intros Hs Hst He. unfold confirm. rewrite Hs.
  rewrite bool_decide_eq_true_2 by done. simpl. by rewrite He.
Qed.

Lemma confirm_forbidden st id seat user now :
  seats st !! id = Some seat → status seat = Locked →
  expiredAt seat now = false → lockedBy seat ≠ Some user →
  confirm id user now st = (st, mkResponse 403 (Message msgForbidden)).
Proof.
  intros Hs Hst He Hu. unfold confirm. rewrite Hs.
  rewrite bool_decide_eq_true_2 by done. simpl. rewrite He.
  by rewrite bool_decide_eq_false_2.
Qed.

Lemma confirm_owner st id seat user now :
  seats st !! id = Some seat → status seat = Locked →
  expiredAt seat now = false → lockedBy seat = Some user →
  confirm id user now st
  = (setSeat id bookedSeat (clearSeatTimer id st),
     mkResponse 200 (Message (msgBooked id))).
Proof.
  intros Hs Hst He Hu. unfold confirm. rewrite Hs.
  rewrite bool_decide_eq_true_2 by done. simpl. rewrite He.
  by rewrite bool_decide_eq_true_2.
Qed.


Lemma unlock_available st id seat :
  seats st !! id = Some seat → status seat = Available →
  unlock id st = (st, mkResponse 200 (Message (msgAlreadyAvailable id))).
Proof. intros Hs Hst. unfold unlock. by rewrite Hs, Hst. Qed.

Lemma unlock_booked st id seat :
  seats st !! id = Some seat → status seat = Booked →
  unlock id st = (st, mkResponse 409 (Message (msgCannotUnlock id))).
Proof. intros Hs Hst. unfold unlock. by rewrite Hs, Hst. Qed.

Lemma unlock_locked st id seat :
  seats st !! id = Some seat → status seat = Locked →
  unlock id st
  = (setSeat id availableSeat (clearSeatTimer id st),
     mkResponse 200 (Message (msgCleared id))).
Proof. intros Hs Hst. unfold unlock. by rewrite Hs, Hst. Qed.
End HandlerCases.

(** * Invariants of the reachable states *)

Section Invariants.
Implicit Types (st : State) (id : Z) (seat : Seat) (h : Handle).

Lemma lookup_fill (l : list Z) (m : gmap Z Seat) id :
  foldl (λ m i, <[i:=availableSeat]> m) m l !! id
  = if decide (id ∈ l) then Some availableSeat else m !! id.
Proof.
  revert m. induction l as [|i l IH]; intros m; cbn [foldl].
  - rewrite decide_False; [done|]. apply not_elem_of_nil.
  - rewrite IH. destruct (decide (id ∈ l)) as [Hin|Hnin].
    + rewrite decide_True; [done|]. apply elem_of_cons. by right.
    + rewrite lookup_insert. destruct (decide (i = id)) as [->|Hne].
      * rewrite decide_True; [done|]. apply elem_of_cons. by left.
      * rewrite decide_False; [done|].
        intros [Heq|Hin]%elem_of_cons; [congruence | contradiction].
Qed.

(** The seats are 1..TOTAL_SEATS, all available at start. *)
Lemma initSeats_lookup id :
  initSeats !! id
  = if decide (1 ≤ id ≤ TOTAL_SEATS) then Some availableSeat else None.
Proof.
  unfold initSeats. rewrite lookup_fill, lookup_empty.
  unfold TOTAL_SEATS. repeat case_decide; try done.
  - rewrite elem_of_seqZ in *. lia.
  - rewrite elem_of_seqZ in *. lia.
Qed.

Lemma shapeOk_init : shapeOk initState.
Proof.
  intros id seat. unfold initState. cbn [seats]. rewrite initSeats_lookup.
  case_decide; [|done]. intros [= <-].
  split; split; simpl; try done; by intros [? ?].
Qed.

Lemma timersOk_init : timersOk initState.
Proof. intros h t. unfold initState. simpl. by rewrite lookup_empty. Qed.

Lemma shapeOk_write st id x :
  shapeOk st →
  (is_Some (lockedBy x) ↔ status x = Locked) →
  (is_Some (lockExpiresAt x) ↔ status x = Locked) →
  shapeOk (setSeat id x (clearSeatTimer id st)).
Proof.
  intros Hok H1 H2 j seat. rewrite seats_release, lookup_insert.
  case_decide; [intros [= <-]; done | apply Hok].
Qed.

Lemma shapeOk_acquired st1 id user now :
  shapeOk st1 → shapeOk (acquired id user now st1).
Proof.
  intros Hok j seat. unfold acquired. simpl. rewrite lookup_insert.
  case_decide; [|apply Hok]. intros [= <-]. simpl. split; split; eauto.
Qed.

Lemma timersOk_write st id x :
  timersOk st → timersOk (setSeat id x (clearSeatTimer id st)).
Proof.
  intros Hok h t Ht. simpl in Ht.
  apply timers_clearSeatTimer_Some in Ht as [Ht Hne].
  destruct (Hok h t Ht) as (Hlt & seat & Hs & Hst & Hh).
  split; [unfold setSeat; simpl; by rewrite nextHandle_clearSeatTimer|].
  exists seat. rewrite seats_release, lookup_insert_ne; [done|].
  intros Heq. apply Hne. rewrite Heq, Hs. done.
Qed.

Lemma timersOk_acquired st1 id user now :
  timersOk st1 →
  (∀ seat, seats st1 !! id = Some seat → status seat ≠ Locked) →
  timersOk (acquired id user now st1).
Proof.
  intros Hok Hfree h t. unfold acquired. simpl. rewrite lookup_insert.
  case_decide as Hh.
  - intros [= <-]. subst h. simpl. split; [lia|].
    eexists. rewrite lookup_insert_eq. done.
  - intros Ht. destruct (Hok h t Ht) as (Hlt & seat & Hs & Hst & Hid).
    split; [lia|]. exists seat. rewrite lookup_insert_ne; [done|].
    intros Heq. rewrite <- Heq in Hs. by eapply Hfree.
Qed.

Lemma timersOk_fire st h now st' :
  timersOk st → fireTimer h now st = Some st' → timersOk st'.
Proof.
  intros Hok. unfold fireTimer.
  destruct (timers st !! h) as [t|] eqn:Ht; [|by intros [= <-]].
  destruct (Hok h t Ht) as (_ & seat & Hs & Hst & Hh).
  unfold expiryCallback. simpl. rewrite Hs.
  assert (timersOk (mkState (seats st) (delete h (timers st)) (nextHandle st)))
    as Hok'.
  { intros h' t'. simpl. rewrite lookup_delete. case_decide; [done|]. apply Hok. }
  destruct (lockedAndExpired seat now); intros [= <-]; [|done].
  intros h' t'. simpl. rewrite lookup_delete. case_decide as Hne; [done|].
  intros Ht'. destruct (Hok h' t' Ht') as (Hlt & seat' & Hs' & Hst' & Hh').
  split; [done|]. exists seat'. rewrite lookup_insert_ne; [done|].
  intros Heq. rewrite Heq in Hs. congruence.
Qed.

Lemma shapeOk_fire st h now st' :
  shapeOk st → fireTimer h now st = Some st' → shapeOk st'.
Proof.
  intros Hok. unfold fireTimer.
  destruct (timers st !! h) as [t|]; [|by intros [= <-]].
  unfold expiryCallback. simpl.
  destruct (seats st !! timerSeat t) as [seat|]; [|done].
  destruct (lockedAndExpired seat now); intros [= <-]; [|done].
  intros j s. simpl. rewrite lookup_insert.
  case_decide; [|apply Hok]. intros [= <-]. split; split; simpl; try done; by intros [? ?].
Qed.

Lemma not_locked_after_write st id x seat :
  status x ≠ Locked →
  seats (setSeat id x (clearSeatTimer id st)) !! id = Some seat →
  status seat ≠ Locked.
Proof. intros Hx. rewrite seats_release, lookup_insert_eq. by intros [= <-]. Qed.

(** The answers of [lock], by the record found at [id]. *)
Lemma lock_cases st id user now st' r :
  lock id user now st = Some (st', r) →
  st' = st
  ∨ (∃ seat, seats st !! id = Some seat ∧ status seat = Available
             ∧ st' = acquired id user now st)
  ∨ (∃ seat, seats st !! id = Some seat ∧ status seat = Locked
             ∧ st' = acquired id user now
                       (setSeat id availableSeat (clearSeatTimer id st))).
Proof.
  intros Hl. destruct (seats st !! id) as [seat|] eqn:Hs.
  - destruct (status seat) eqn:Hst.
    + erewrite lock_available in Hl by done. simplify_eq. right; left; eauto.
    + destruct (expiredAt seat now) eqn:He.
      * erewrite lock_lapsed in Hl by done. simplify_eq. right; right; eauto.
      * erewrite lock_held in Hl by done. simplify_eq. by left.
    + erewrite lock_booked in Hl by done. simplify_eq. by left.
  - rewrite lock_not_found in Hl by done. simplify_eq. by left.
Qed.

(** The states [confirm] and [unlock] leave. *)
Lemma confirm_cases st id user now :
  (confirm id user now st).1 = st
  ∨ (∃ seat, seats st !! id = Some seat ∧ status seat = Locked
             ∧ ((confirm id user now st).1
                = setSeat id availableSeat (clearSeatTimer id st)
                ∨ (confirm id user now st).1
                  = setSeat id bookedSeat (clearSeatTimer id st))).
Proof.
  unfold confirm. destruct (seats st !! id) as [seat|] eqn:Hs; [|by left].
  case_bool_decide as Hst; simpl; [|by left].
  destruct (expiredAt seat now); [right; eauto|].
  case_bool_decide; simpl; [right; eauto | by left].
Qed.

Lemma unlock_cases st id :
  (unlock id st).1 = st
  ∨ (∃ seat, seats st !! id = Some seat ∧ status seat = Locked
             ∧ (unlock id st).1 = setSeat id availableSeat (clearSeatTimer id st)).
Proof.
  unfold unlock. destruct (seats st !! id) as [seat|] eqn:Hs; [|by left].
  destruct (status seat) eqn:Hst; simpl; eauto.
Qed.

Lemma shape_available :
  (is_Some (lockedBy availableSeat) ↔ status availableSeat = Locked)
  ∧ (is_Some (lockExpiresAt availableSeat) ↔ status availableSeat = Locked).
Proof. split; split; simpl; try done; by intros [? ?]. Qed.

Lemma shape_booked :
  (is_Some (lockedBy bookedSeat) ↔ status bookedSeat = Locked)
  ∧ (is_Some (lockExpiresAt bookedSeat) ↔ status bookedSeat = Locked).
Proof. split; split; simpl; try done; by intros [? ?]. Qed.

(** Each invariant is kept by every event. *)
Lemma exec_shapeOk op st st' r :
  shapeOk st → exec op st = Some (st', r) → shapeOk st'.
Proof.
  intros Hsh Hex. destruct op as [|id user now|id user now|id|h now]; simpl in Hex.
  - by simplify_eq.
  - destruct (lock id user now st) as [[st1 r1]|] eqn:Hl; simplify_eq/=.
    destruct (lock_cases _ _ _ _ _ _ Hl)
      as [->|[(seat & Hs & Hst & ->)|(seat & Hs & Hst & ->)]]; [done|..].
    + by apply shapeOk_acquired.
    + apply shapeOk_acquired, shapeOk_write; [done|apply shape_available..].
  - destruct (confirm id user now st) as [st1 r1] eqn:Hc; simplify_eq/=.
    destruct (confirm_cases st id user now) as [H|(seat & _ & _ & [H|H])];
      rewrite Hc in H; simpl in H; subst st'; [done|..].
    + apply shapeOk_write; [done|apply shape_available..].
    + apply shapeOk_write; [done|apply shape_booked..].
  - destruct (unlock id st) as [st1 r1] eqn:Hu; simplify_eq/=.
    destruct (unlock_cases st id) as [H|(seat & _ & _ & H)];
      rewrite Hu in H; simpl in H; subst st'; [done|].
    apply shapeOk_write; [done|apply shape_available..].
  - destruct (fireTimer h now st) as [st1|] eqn:Hf; simplify_eq/=.
    by eapply shapeOk_fire.
Qed.

Lemma exec_timersOk op st st' r :
  timersOk st → exec op st = Some (st', r) → timersOk st'.
Proof.
  intros Htm Hex. destruct op as [|id user now|id user now|id|h now]; simpl in Hex.
  - by simplify_eq.
  - destruct (lock id user now st) as [[st1 r1]|] eqn:Hl; simplify_eq/=.
    destruct (lock_cases _ _ _ _ _ _ Hl)
      as [->|[(seat & Hs & Hst & ->)|(seat & Hs & Hst & ->)]]; [done|..].
    + apply timersOk_acquired; [done|].
      intros s. rewrite Hs. intros [= <-]. by rewrite Hst.
    + apply timersOk_acquired; [by apply timersOk_write|].
      intros s. by apply not_locked_after_write.
  - destruct (confirm id user now st) as [st1 r1] eqn:Hc; simplify_eq/=.
    destruct (confirm_cases st id user now) as [H|(seat & _ & _ & [H|H])];
      rewrite Hc in H; simpl in H; subst st'; [done|..];
      by apply timersOk_write.
  - destruct (unlock id st) as [st1 r1] eqn:Hu; simplify_eq/=.
    destruct (unlock_cases st id) as [H|(seat & _ & _ & H)];
      rewrite Hu in H; simpl in H; subst st'; [done|].
    by apply timersOk_write.
  - destruct (fireTimer h now st) as [st1|] eqn:Hf; simplify_eq/=.
    by eapply timersOk_fire.
Qed.

Lemma exec_invariants op st st' r :
  shapeOk st ∧ timersOk st → exec op st = Some (st', r) →
  shapeOk st' ∧ timersOk st'.
Proof.
  intros [Hsh Htm] Hex. split; [by eapply exec_shapeOk | by eapply exec_timersOk].
Qed.

Lemma reachable_invariants st : reachable st → shapeOk st ∧ timersOk st.
Proof.
  induction 1 as [|st op st' r _ IH Hex].
  - split; [apply shapeOk_init | apply timersOk_init].
  - by eapply exec_invariants.
Qed.

(** In a state that satisfies [timersOk], a pending timer finds its seat:
    the callback does not throw. *)
Lemma fireTimer_total st h now :
  timersOk st → ∃ st', fireTimer h now st = Some st'.
Proof.
  intros Hok. unfold fireTimer.
  destruct (timers st !! h) as [t|] eqn:Ht; [|eauto].
  destruct (Hok h t Ht) as (_ & seat & Hs & _).
  unfold expiryCallback. simpl. rewrite Hs.
  destruct (lockedAndExpired seat now); eauto.
Qed.

(** Every event of a reachable state yields a state. *)
Lemma exec_total op st :
  reachable st → ∃ st' r, exec op st = Some (st', r).
Proof.
  intros [_ Htm]%reachable_invariants.
  destruct op as [|id user now|id user now|id|h now]; simpl.
  - eauto.
  - destruct (lock_total st id user now) as (st' & r & ->). simpl. eauto.
  - destruct (confirm id user now st). eauto.
  - destruct (unlock id st). eauto.
  - destruct (fireTimer_total st h now Htm) as (st' & ->). simpl. eauto.
Qed.
End Invariants.

(** * The lock window *)

Section LockWindow.
Implicit Types (st : State) (id : Z) (A B : string) (t : Z).

Lemma holdsLock_live st id A t0 t :
  holdsLock st id A t0 → t < t0 + LOCK_TTL →
  ∃ seat, seats st !! id = Some seat ∧ status seat = Locked
          ∧ lockedBy seat = Some A ∧ expiredAt seat t = false.
Proof.
  intros (seat & Hs & Hst & Hu & He) Hlt. exists seat.
  repeat split; try done. by eapply expiredAt_false_lt.
Qed.

Lemma holdsLock_lapsed st id A t0 t :
  holdsLock st id A t0 → clockReading t0 → t0 + LOCK_TTL ≤ t →
  ∃ seat, seats st !! id = Some seat ∧ status seat = Locked
          ∧ lockedBy seat = Some A ∧ expiredAt seat t = true.
Proof.
  intros (seat & Hs & Hst & Hu & He) Hc Hle. exists seat.
  repeat split; try done. eapply expiredAt_true_le; [done| |done].
  unfold clockReading, LOCK_TTL in *. lia.
Qed.

Lemma statusOf_write st id x :
  statusOf (setSeat id x (clearSeatTimer id st)) id = Some (status x).
Proof. unfold statusOf. by rewrite seats_release, lookup_insert_eq. Qed.

Lemma statusOf_Some st id s :
  statusOf st id = Some s ↔ ∃ seat, seats st !! id = Some seat ∧ status seat = s.
Proof.
  unfold statusOf. destruct (seats st !! id) as [seat|]; simpl; split.
  - intros [= <-]. eauto.
  - by intros (? & [= <-] & <-).
  - done.
  - by intros (? & ? & _).
Qed.
End LockWindow.

(** C1.  Mutual exclusion on lock.
    (1) While a seat holds a lock taken at [t0], a lock request of any
        caller at any [t < t0 + LOCK_TTL] is answered 423 (already locked)
        and the whole state is unchanged.
    (2) Of two lock requests on an available seat, the second one arriving
        within the window of the first, the first is answered 200 and the
        second 423: exactly one succeeds.
    (3) At any [t ≥ t0 + LOCK_TTL] the request succeeds: the lapsed lock is
        first released (the seat is available, its timer cleared), then the
        new lock is acquired on that store.  [t0] is a clock reading. *)
Theorem lock_mutual_exclusion :
  (∀ st id A t0 B t,
     holdsLock st id A t0 → t < t0 + LOCK_TTL →
     lock id B t st = Some (st, mkResponse 423 (Message (msgAlreadyLocked id))))
  ∧ (∀ st id A B t1 t2,
       statusOf st id = Some Available → t2 < t1 + LOCK_TTL →
       ∃ st1, lock id A t1 st = Some (st1, okLocked id)
              ∧ holdsLock st1 id A t1
              ∧ lock id B t2 st1
                = Some (st1, mkResponse 423 (Message (msgAlreadyLocked id))))
  ∧ (∀ st id A t0 B t,
       holdsLock st id A t0 → clockReading t0 → t0 + LOCK_TTL ≤ t →
       let released := setSeat id availableSeat (clearSeatTimer id st) in
       statusOf released id = Some Available
       ∧ lock id B t st = Some (acquired id B t released, okLocked id)
       ∧ holdsLock (acquired id B t released) id B t).
Proof.
  split; [|split].
  - intros st id A t0 B t Hh Hlt.
    destruct (holdsLock_live _ _ _ _ _ Hh Hlt) as (seat & Hs & Hst & _ & He).
    by eapply lock_held.
  - intros st id A B t1 t2 (seat & Hs & Hst)%statusOf_Some Hlt.
    exists (acquired id A t1 st). split; [by eapply lock_available|].
    pose proof (holdsLock_acquired st id A t1) as Hh. split; [done|].
    destruct (holdsLock_live _ _ _ _ _ Hh Hlt) as (seat' & Hs' & Hst' & _ & He).
    by eapply lock_held.
  - intros st id A t0 B t Hh Hc Hle released.
    destruct (holdsLock_lapsed _ _ _ _ _ Hh Hc Hle) as (seat & Hs & Hst & _ & He).
    split; [apply statusOf_write|]. split; [by eapply lock_lapsed|].
    apply holdsLock_acquired.
Qed.

Lemma lock_mutual_exclusion_witness :
  (∃ st1, lock 1 "A" 0 initState = Some (st1, okLocked 1)
          ∧ holdsLock st1 1 "A" 0
          ∧ lock 1 "B" 59999 st1
            = Some (st1, mkResponse 423 (Message (msgAlreadyLocked 1))))
  ∧ lock 1 "B" 100 (acquired 1 "A" 0 initState)
    = Some (acquired 1 "A" 0 initState,
            mkResponse 423 (Message (msgAlreadyLocked 1)))
  ∧ lock 1 "B" 60000 (acquired 1 "A" 0 initState)
    = Some (acquired 1 "B" 60000
              (setSeat 1 availableSeat (clearSeatTimer 1 (acquired 1 "A" 0 initState))),
            okLocked 1).
Proof.
  destruct lock_mutual_exclusion as (H1 & H2 & H3).
  assert (holdsLock (acquired 1 "A" 0 initState) 1 "A" 0) as Hh.
  { exists (mkSeat Locked (Some "A") (Some 60000) (Some 0%nat)).
    repeat split; vm_compute; reflexivity. }
  split; [|split].
  - apply (H2 initState 1 "A" "B" 0 59999); [vm_compute; reflexivity | reflexivity].
  - apply (H1 _ 1 "A" 0 "B" 100 Hh). reflexivity.
  - apply (H3 _ 1 "A" 0 "B" 60000 Hh); [unfold clockReading; lia | vm_compute; discriminate].
Defined.

(** C2.  Confirm respects the lock window.  A 200 answer of [lock] leaves
    the seat holding the caller's lock; while the lock is held,
    [confirm] by the holder at [t < t0 + LOCK_TTL] is answered 200 and the
    seat's record becomes [{ status: 'booked' }]; at [t ≥ t0 + LOCK_TTL] it
    is answered 408 (lock expired), the seat's record becomes
    [{ status: 'available' }], and a further [confirm] finds the seat not
    locked (400): the caller has to lock again.  [t0] is a clock reading. *)
Theorem confirm_lock_window :
  (∀ st id A t0 st1 r,
     lock id A t0 st = Some (st1, r) → code r = 200 → holdsLock st1 id A t0)
  ∧ (∀ st id A t0 t,
       holdsLock st id A t0 → t < t0 + LOCK_TTL →
       let booked := setSeat id bookedSeat (clearSeatTimer id st) in
       confirm id A t st = (booked, mkResponse 200 (Message (msgBooked id)))
       ∧ seats booked !! id = Some bookedSeat
       ∧ statusOf booked id = Some Booked)
  ∧ (∀ st id A t0 t,
       holdsLock st id A t0 → clockReading t0 → t0 + LOCK_TTL ≤ t →
       let released := setSeat id availableSeat (clearSeatTimer id st) in
       confirm id A t st = (released, mkResponse 408 (Message msgExpired))
       ∧ seats released !! id = Some availableSeat
       ∧ statusOf released id = Some Available
       ∧ ∀ t', confirm id A t' released
               = (released, mkResponse 400 (Message msgNotLocked))).
Proof.
  split; [|split].
  - intros st id A t0 st1 r. apply lock_ok_holdsLock.
  - intros st id A t0 t Hh Hlt booked.
    destruct (holdsLock_live _ _ _ _ _ Hh Hlt) as (seat & Hs & Hst & Hu & He).
    split; [by eapply confirm_owner|].
    split; [subst booked; by rewrite seats_release, lookup_insert_eq|].
    apply statusOf_write.
  - intros st id A t0 t Hh Hc Hle released.
    destruct (holdsLock_lapsed _ _ _ _ _ Hh Hc Hle) as (seat & Hs & Hst & Hu & He).
    split; [by eapply confirm_lapsed|].
    assert (seats released !! id = Some availableSeat) as Hr
      by (subst released; by rewrite seats_release, lookup_insert_eq).
    split; [done|]. split; [apply statusOf_write|].
    intros t'. by eapply confirm_not_locked.
Qed.

Lemma confirm_lock_window_witness :
  holdsLock (acquired 1 "A" 0 initState) 1 "A" 0
  ∧ code (confirm 1 "A" 59999 (acquired 1 "A" 0 initState)).2 = 200
  ∧ code (confirm 2 "C" 60001 (acquired 2 "C" 0 initState)).2 = 408.
Proof.
  destruct confirm_lock_window as (H1 & H2 & H3).
  assert (holdsLock (acquired 1 "A" 0 initState) 1 "A" 0) as Hh.
  { apply (H1 initState 1 "A" 0 _ (okLocked 1)); vm_compute; reflexivity. }
  assert (holdsLock (acquired 2 "C" 0 initState) 2 "C" 0) as Hh2.
  { apply (H1 initState 2 "C" 0 _ (okLocked 2)); vm_compute; reflexivity. }
  split; [exact Hh|]. split.
  - destruct (H2 _ 1 "A" 0 59999 Hh) as [-> _]; reflexivity.
  - destruct (H3 _ 2 "C" 0 60001 Hh2) as [-> _];
      [unfold clockReading; lia | vm_compute; discriminate | reflexivity].
Defined.

(** C6.  Owner isolation.  While the seat holds the lock of [A] taken at
    [t0], [confirm] by any other caller at [t < t0 + LOCK_TTL] is answered
    403 (forbidden) and the whole state, hence the seat's status, holder and
    expiry, is unchanged. *)
Theorem confirm_owner_isolation st id A B t0 t :
  holdsLock st id A t0 → t < t0 + LOCK_TTL → B ≠ A →
  confirm id B t st = (st, mkResponse 403 (Message msgForbidden))
  ∧ holdsLock (confirm id B t st).1 id A t0.
Proof.
  intros Hh Hlt Hne.
  destruct (holdsLock_live _ _ _ _ _ Hh Hlt) as (seat & Hs & Hst & Hu & He).
  assert (confirm id B t st = (st, mkResponse 403 (Message msgForbidden))) as ->.
  { eapply confirm_forbidden; try done. rewrite Hu. congruence. }
  done.
Qed.

Lemma confirm_owner_isolation_witness :
  confirm 1 "B" 100 (acquired 1 "A" 0 initState)
  = (acquired 1 "A" 0 initState, mkResponse 403 (Message msgForbidden)).
Proof.
  apply (confirm_owner_isolation (acquired 1 "A" 0 initState) 1 "A" "B" 0 100).
  - exists (mkSeat Locked (Some "A") (Some 60000) (Some 0%nat)).
    repeat split; vm_compute; reflexivity.
  - reflexivity.
  - discriminate.
Defined.

(** * Expiry *)

Lemma expiryCallback_cases st id now seat :
  seats st !! id = Some seat →
  expiryCallback id now st
  = Some (if lockedAndExpired seat now then setSeat id availableSeat st else st).
Proof.
  intros Hs. unfold expiryCallback. rewrite Hs.
  by destruct (lockedAndExpired seat now).
Qed.

(** C3.  Scheduled-expiry safety.  In every reachable state, when a pending
    timer [h], armed for seat [timerSeat t], fires at [now], its callback
    returns, having read the record [seat] currently stored for that seat,
    and
    - the pending timer is never a stale one: the record is Locked and the
      handle it stores is [h], because every handler clears the timer of a
      locked record before it replaces the record;
    - the seats change only by the write of [{ status: 'available' }] to that
      seat, and only if the record is still Locked, stores the lock this
      timer was armed with, and has [lockExpiresAt ≤ now];
    - in every other case all seats are unchanged;
    - when the stored expiry test of the code holds, the seat is reclaimed.
    A handle that is no longer pending (cleared or already fired) does not
    run the callback at all. *)
Theorem expiry_timer_safe :
  (∀ st h t now,
     reachable st → timers st !! h = Some t →
     ∃ seat st',
       seats st !! timerSeat t = Some seat
       ∧ fireTimer h now st = Some st'
       ∧ (status seat = Locked ∧ timeoutId seat = Some h)
       ∧ (seats st' = seats st
          ∨ (seats st' = <[timerSeat t := availableSeat]> (seats st)
             ∧ specReclaims h seat now))
       ∧ (¬ specReclaims h seat now → seats st' = seats st)
       ∧ (expiredAt seat now = true →
          seats st' = <[timerSeat t := availableSeat]> (seats st)))
  ∧ (∀ st h now, timers st !! h = None → fireTimer h now st = Some st).
Proof.
  split.
  - intros st h t now [_ Htm]%reachable_invariants Ht.
    destruct (Htm h t Ht) as (_ & seat & Hs & Hst & Hh).
    unfold fireTimer. rewrite Ht.
    erewrite expiryCallback_cases by (cbn [seats]; exact Hs).
    unfold lockedAndExpired. rewrite bool_decide_eq_true_2 by done. cbn [andb].
    exists seat. eexists. split; [done|]. split; [done|]. split; [done|].
    destruct (expiredAt seat now) eqn:He.
    + apply expiredAt_spec in He as (e & He & _ & Hle).
      assert (specReclaims h seat now) as Hspec by (repeat split; eauto).
      split; [right; done|]. split; [done|]. done.
    + split; [by left|]. split; done.
  - intros st h now Ht. unfold fireTimer. by rewrite Ht.
Qed.

Lemma expiry_timer_safe_witness :
  (∃ seat st',
     seats (acquired 1 "A" 0 initState) !! 1 = Some seat
     ∧ fireTimer 0%nat 60050 (acquired 1 "A" 0 initState) = Some st'
     ∧ status seat = Locked ∧ timeoutId seat = Some 0%nat)
  ∧ fireTimer 7%nat 60050 (acquired 1 "A" 0 initState)
    = Some (acquired 1 "A" 0 initState).
Proof.
  destruct expiry_timer_safe as [H1 H2]. split.
  - destruct (H1 (acquired 1 "A" 0 initState) 0%nat
                (mkTimer 1 (LOCK_TTL + 50)) 60050)
      as (seat & st' & Hs & Hf & [Hst Hh] & _).
    + apply (reachable_step initState (OpLock 1 "A" 0) _ (Some (okLocked 1)));
        [apply reachable_init | vm_compute; reflexivity].
    + vm_compute. reflexivity.
    + exists seat, st'. done.
  - apply H2. vm_compute. reflexivity.
Defined.

(** C4, as stated, fails for [GET /seats]: after [lock 1 "A" 0] the lock of
    seat 1 lapses at 60000; a listing made at any later instant (the handler
    reads no clock) still reports the seat as locked and leaves the record
    as it was. *)
Lemma listSeats_reports_lapsed_lock :
  lock 1 "A" 0 initState = Some (acquired 1 "A" 0 initState, okLocked 1)
  ∧ seats (acquired 1 "A" 0 initState) !! 1
    = Some (mkSeat Locked (Some "A") (Some 60000) (Some 0%nat))
  ∧ lockedAndExpired (mkSeat Locked (Some "A") (Some 60000) (Some 0%nat)) 70000 = true
  ∧ (listSeats (acquired 1 "A" 0 initState)).1 = acquired 1 "A" 0 initState
  ∧ statusOf (listSeats (acquired 1 "A" 0 initState)).1 1 = Some Locked
  ∧ ∃ v, (listSeats (acquired 1 "A" 0 initState)).2 = mkResponse 200 (View v)
         ∧ v !! 1 = Some Locked.
Proof.
  split; [vm_compute; reflexivity|]. split; [vm_compute; reflexivity|].
  split; [reflexivity|]. split; [reflexivity|]. split; [vm_compute; reflexivity|].
  eexists. split; [reflexivity|]. vm_compute. reflexivity.
Qed.

(** C4, amended.  For a seat whose record is Locked with a [lockExpiresAt]
    that is set, non-zero and [≤ now]:
    (1) [lock] first releases the seat (record [{ status: 'available' }],
        timer cleared) and then behaves as it does on that store: it
        acquires the lock;
    (2) [confirm] releases the seat in the same way and answers 408.
    [GET /seats] makes no expiry test: for every state it changes nothing
    and reports the stored status of every seat (3).  [unlock] makes none
    either: a Locked seat is released whether or not its lock has lapsed
    (4). *)
Theorem lazy_expiry_at_start :
  (∀ st id user now seat e,
     seats st !! id = Some seat → status seat = Locked →
     lockExpiresAt seat = Some e → e ≠ 0 → e ≤ now →
     let released := setSeat id availableSeat (clearSeatTimer id st) in
     seats released !! id = Some availableSeat
     ∧ lock id user now st = lock id user now released
     ∧ lock id user now st = Some (acquired id user now released, okLocked id))
  ∧ (∀ st id user now seat e,
       seats st !! id = Some seat → status seat = Locked →
       lockExpiresAt seat = Some e → e ≠ 0 → e ≤ now →
       let released := setSeat id availableSeat (clearSeatTimer id st) in
       seats released !! id = Some availableSeat
       ∧ confirm id user now st = (released, mkResponse 408 (Message msgExpired)))
  ∧ (∀ st,
       (listSeats st).1 = st
       ∧ ∃ v, (listSeats st).2 = mkResponse 200 (View v)
              ∧ ∀ id, v !! id = statusOf st id)
  ∧ (∀ st id seat,
       seats st !! id = Some seat → status seat = Locked →
       unlock id st
       = (setSeat id availableSeat (clearSeatTimer id st),
          mkResponse 200 (Message (msgCleared id)))).
Proof.
  split; [|split; [|split]].
  - intros st id user now seat e Hs Hst He H0 Hle released.
    assert (seats released !! id = Some availableSeat) as Hr
      by (subst released; by rewrite seats_release, lookup_insert_eq).
    assert (expiredAt seat now = true) as Hx by by eapply expiredAt_true_le.
    split; [done|].
    rewrite (lock_lapsed _ _ _ _ _ Hs Hst Hx).
    by rewrite (lock_available released id availableSeat user now Hr).
  - intros st id user now seat e Hs Hst He H0 Hle released.
    split; [subst released; by rewrite seats_release, lookup_insert_eq|].
    eapply confirm_lapsed; try done. by eapply expiredAt_true_le.
  - intros st. split; [done|]. eexists. split; [done|].
    intros id. unfold statusOf. apply lookup_fmap.
  - intros st id seat. apply unlock_locked.
Qed.

Lemma lazy_expiry_at_start_witness :
  lock 1 "B" 70000 (acquired 1 "A" 0 initState)
  = Some (acquired 1 "B" 70000
            (setSeat 1 availableSeat (clearSeatTimer 1 (acquired 1 "A" 0 initState))),
          okLocked 1)
  ∧ confirm 1 "A" 70000 (acquired 1 "A" 0 initState)
    = (setSeat 1 availableSeat (clearSeatTimer 1 (acquired 1 "A" 0 initState)),
       mkResponse 408 (Message msgExpired))
  ∧ unlock 1 (acquired 1 "A" 0 initState)
    = (setSeat 1 availableSeat (clearSeatTimer 1 (acquired 1 "A" 0 initState)),
       mkResponse 200 (Message (msgCleared 1))).
Proof.
  destruct lazy_expiry_at_start as (H1 & H2 & _ & H4).
  split; [|split].
  - apply (H1 _ 1 "B" 70000 (mkSeat Locked (Some "A") (Some 60000) (Some 0%nat)) 60000);
      [vm_compute; reflexivity | reflexivity | reflexivity | discriminate
      | vm_compute; discriminate].
  - apply (H2 _ 1 "A" 70000 (mkSeat Locked (Some "A") (Some 60000) (Some 0%nat)) 60000);
      [vm_compute; reflexivity | reflexivity | reflexivity | discriminate
      | vm_compute; discriminate].
  - apply (H4 _ 1 (mkSeat Locked (Some "A") (Some 60000) (Some 0%nat)));
      [vm_compute; reflexivity | reflexivity].
Defined.

(** C5, as stated, fails: the answer of a successful lock carries a fixed
    message and no instant.  Two locks of seat 1 taken at 0 and at 1000 get
    the same answer while the stored expiry instants are 60000 and 61000. *)
Lemma lock_answer_has_no_expiry :
  ∃ st1 st2 r,
    lock 1 "A" 0 initState = Some (st1, r)
    ∧ lock 1 "A" 1000 initState = Some (st2, r)
    ∧ r = mkResponse 200
            (Message "Seat 1 locked successfully. Confirm within 1 minute.")
    ∧ (seats st1 !! 1 ≫= lockExpiresAt) = Some 60000
    ∧ (seats st2 !! 1 ≫= lockExpiresAt) = Some 61000.
Proof.
  do 3 eexists. split; [vm_compute; reflexivity|].
  split; [vm_compute; reflexivity|]. split; [reflexivity|].
  split; vm_compute; reflexivity.
Qed.

(** C5, amended.  A lock request on an available seat is answered 200 with
    the message [msgLocked] only (no expiry instant).  It stores the record
    [{ status: 'locked', lockedBy: user, lockExpiresAt: now + LOCK_TTL }]
    with the handle of a timer it arms for the seat with delay
    [LOCK_TTL + 50]; the pending timers are otherwise unchanged.  In a
    reachable state the handle is new and no other timer is pending for the
    seat afterwards. *)
Theorem lock_acquires st id user now seat :
  seats st !! id = Some seat → status seat = Available →
  ∃ st',
    lock id user now st = Some (st', mkResponse 200 (Message (msgLocked id)))
    ∧ seats st' !! id
      = Some (mkSeat Locked (Some user) (Some (now + LOCK_TTL)) (Some (nextHandle st)))
    ∧ timers st' = <[nextHandle st := mkTimer id (LOCK_TTL + 50)]> (timers st)
    ∧ (reachable st →
       timers st !! nextHandle st = None
       ∧ ∀ h t, timers st' !! h = Some t → timerSeat t = id → h = nextHandle st).
Proof.
  intros Hs Hst. exists (acquired id user now st).
  split; [by eapply lock_available|].
  split; [unfold acquired; simpl; by rewrite lookup_insert_eq|].
  split; [done|].
  intros [_ Htm]%reachable_invariants. split.
  - destruct (timers st !! nextHandle st) as [t|] eqn:Ht; [|done].
    destruct (Htm _ _ Ht) as [Hlt _]. lia.
  - intros h t. unfold acquired. simpl. rewrite lookup_insert.
    case_decide; [done|]. intros Ht Hid.
    destruct (Htm _ _ Ht) as (_ & seat' & Hs' & Hst' & _).
    rewrite Hid, Hs in Hs'. congruence.
Qed.

Lemma lock_acquires_witness :
  ∃ st',
    lock 1 "A" 0 initState
    = Some (st', mkResponse 200 (Message (msgLocked 1)))
    ∧ seats st' !! 1
      = Some (mkSeat Locked (Some "A") (Some 60000) (Some 0%nat))
    ∧ timers st' = <[0%nat := mkTimer 1 60050]> ∅
    ∧ timers initState !! 0%nat = None.
Proof.
  destruct (lock_acquires initState 1 "A" 0 availableSeat)
    as (st' & Hl & Hs & Ht & Hr); [vm_compute; reflexivity | reflexivity |].
  exists st'. split; [exact Hl|]. split; [exact Hs|]. split; [exact Ht|].
  apply Hr, reachable_init.
Defined.

(** * Frame *)

Section Frame.
Implicit Types (st : State) (id : Z) (seat : Seat) (h : Handle).

Lemma frame_same tgt st st' : seats st' = seats st → frame tgt st st'.
Proof. intros Heq. unfold frame. by rewrite Heq. Qed.

Lemma frame_refl tgt st : frame tgt st st.
Proof. by apply frame_same. Qed.

(** A write to an existing seat frames every other seat. *)
Lemma frame_insert st st' id x :
  is_Some (seats st !! id) → seats st' = <[id := x]> (seats st) →
  frame (Some id) st st'.
Proof.
  intros Hin Heq. unfold frame. rewrite Heq. split.
  - by apply dom_insert_lookup_L.
  - intros j Hj. rewrite lookup_insert_ne; [done|]. congruence.
Qed.

Lemma frame_write st id seat x :
  seats st !! id = Some seat →
  frame (Some id) st (setSeat id x (clearSeatTimer id st)).
Proof. intros Hs. apply (frame_insert _ _ _ x); [eauto | apply seats_release]. Qed.

Lemma frame_lock st id user now st' r :
  lock id user now st = Some (st', r) → frame (Some id) st st'.
Proof.
  intros Hl. destruct (lock_cases _ _ _ _ _ _ Hl)
    as [->|[(seat & Hs & Hst & ->)|(seat & Hs & Hst & ->)]].
  - apply frame_refl.
  - eapply frame_insert; [eauto | done].
  - eapply frame_insert; [eauto|]. unfold acquired. cbn [seats].
    by rewrite seats_release, insert_insert_eq.
Qed.

Lemma frame_confirm st id user now :
  frame (Some id) st (confirm id user now st).1.
Proof.
  destruct (confirm_cases st id user now) as [->|(seat & Hs & _ & [-> | ->])].
  - apply frame_refl.
  - by eapply frame_write.
  - by eapply frame_write.
Qed.

Lemma frame_unlock st id : frame (Some id) st (unlock id st).1.
Proof.
  destruct (unlock_cases st id) as [->|(seat & Hs & _ & ->)].
  - apply frame_refl.
  - by eapply frame_write.
Qed.

Lemma frame_fire st h now st' :
  fireTimer h now st = Some st' → frame (timerSeat <$> timers st !! h) st st'.
Proof.
  unfold fireTimer. destruct (timers st !! h) as [t|]; simpl.
  - unfold expiryCallback. simpl.
    destruct (seats st !! timerSeat t) as [seat|] eqn:Hs; [|done].
    destruct (lockedAndExpired seat now); intros [= <-].
    + eapply frame_insert; [eauto | done].
    + by apply frame_same.
  - intros [= <-]. apply frame_refl.
Qed.

Lemma exec_frame op st st' r :
  exec op st = Some (st', r) → frame (target op st) st st'.
Proof.
  destruct op as [|id user now|id user now|id|h now]; simpl; intros Hex.
  - simplify_eq. apply frame_refl.
  - destruct (lock id user now st) as [[st1 r1]|] eqn:Hl; simplify_eq/=.
    by eapply frame_lock.
  - pose proof (frame_confirm st id user now) as Hf.
    destruct (confirm id user now st). by simplify_eq/=.
  - pose proof (frame_unlock st id) as Hf.
    destruct (unlock id st). by simplify_eq/=.
  - destruct (fireTimer h now st) as [st1|] eqn:Hf; simplify_eq/=.
    by eapply frame_fire.
Qed.

(** A booked record is left as it is by every event. *)
Lemma exec_booked op st st' r id seat :
  seats st !! id = Some seat → status seat = Booked →
  exec op st = Some (st', r) → seats st' !! id = Some seat.
Proof.
  intros Hs Hst Hex.
  destruct (decide (target op st = Some id)) as [Ht|Ht].
  - destruct op as [|id' user now|id' user now|id'|h now]; simpl in *; simplify_eq.
    + erewrite lock_booked in Hex by done. by simplify_eq/=.
    + erewrite confirm_not_locked in Hex by (done || congruence). by simplify_eq/=.
    + erewrite unlock_booked in Hex by done. by simplify_eq/=.
    + unfold fireTimer in Hex. destruct (timers st !! h) as [t|]; simplify_eq/=.
      unfold expiryCallback in Hex. simpl in Hex. rewrite Hs in Hex.
      unfold lockedAndExpired in Hex. rewrite Hst in Hex. by simplify_eq/=.
  - destruct (exec_frame _ _ _ _ Hex) as [_ Hfr]. by rewrite Hfr.
Qed.

Lemma execAll_booked ops st st' id seat :
  seats st !! id = Some seat → status seat = Booked →
  execAll ops st = Some st' → seats st' !! id = Some seat.
Proof.
  revert st. induction ops as [|op ops IH]; intros st Hs Hst; simpl.
  - by intros [= <-].
  - destruct (exec op st) as [[st1 r]|] eqn:Hex; [|done]. simpl.
    apply IH; [by eapply exec_booked | done].
Qed.

Lemma confirm_ok_inv st id user now st' r :
  confirm id user now st = (st', r) → code r = 200 →
  st' = setSeat id bookedSeat (clearSeatTimer id st)
  ∧ ∃ seat, seats st !! id = Some seat ∧ status seat = Locked
            ∧ lockedBy seat = Some user.
Proof.
  unfold confirm. destruct (seats st !! id) as [seat|]; [|by intros [= <- <-]].
  case_bool_decide; simpl; [|by intros [= <- <-]].
  destruct (expiredAt seat now); [by intros [= <- <-]|].
  case_bool_decide; simpl; [|by intros [= <- <-]].
  intros [= <- <-] _. eauto.
Qed.

Lemma reachable_dom st : reachable st → dom (seats st) = dom initSeats.
Proof.
  induction 1 as [|st op st' r _ IH Hex]; [done|].
  destruct (exec_frame _ _ _ _ Hex) as [-> _]. done.
Qed.
End Frame.

(** C7.  Booked is terminal.  A 200 answer of [confirm] leaves the record
    [{ status: 'booked' }]; once a seat's record is booked, every [lock] is
    answered 409, every [unlock] 409 and every [confirm] 400, each leaving
    the state unchanged, a firing timer leaves the record as it is, and so
    does every sequence of events: the seat stays booked. *)
Theorem booked_is_terminal :
  (∀ st id user now st' r,
     confirm id user now st = (st', r) → code r = 200 →
     seats st' !! id = Some bookedSeat)
  ∧ (∀ st id seat,
       seats st !! id = Some seat → status seat = Booked →
       (∀ user now,
          lock id user now st
          = Some (st, mkResponse 409 (Message (msgAlreadyBooked id))))
       ∧ unlock id st = (st, mkResponse 409 (Message (msgCannotUnlock id)))
       ∧ (∀ user now,
            confirm id user now st = (st, mkResponse 400 (Message msgNotLocked)))
       ∧ (∀ h now st', fireTimer h now st = Some st' → seats st' !! id = Some seat)
       ∧ (∀ ops st', execAll ops st = Some st' →
                     seats st' !! id = Some seat ∧ statusOf st' id = Some Booked)).
Proof.
  split.
  - intros st id user now st' r Hc Hok.
    destruct (confirm_ok_inv _ _ _ _ _ _ Hc Hok) as [-> _].
    by rewrite seats_release, lookup_insert_eq.
  - intros st id seat Hs Hst. repeat split.
    + intros user now. by eapply lock_booked.
    + by eapply unlock_booked.
    + intros user now. eapply confirm_not_locked; [done|congruence].
    + intros h now st' Hf.
      apply (exec_booked (OpFire h now) st st' None id seat Hs Hst).
      simpl. by rewrite Hf.
    + by eapply execAll_booked.
    + unfold statusOf. erewrite execAll_booked by done. simpl. by rewrite Hst.
Qed.

Lemma booked_is_terminal_witness :
  let booked := (confirm 1 "A" 100 (acquired 1 "A" 0 initState)).1 in
  seats booked !! 1 = Some bookedSeat
  ∧ lock 1 "B" 999999 booked
    = Some (booked, mkResponse 409 (Message (msgAlreadyBooked 1)))
  ∧ unlock 1 booked = (booked, mkResponse 409 (Message (msgCannotUnlock 1)))
  ∧ confirm 1 "A" 5 booked = (booked, mkResponse 400 (Message msgNotLocked)).
Proof.
  intros booked. destruct booked_is_terminal as [H1 H2].
  assert (seats booked !! 1 = Some bookedSeat) as Hb.
  { apply (H1 (acquired 1 "A" 0 initState) 1 "A" 100 booked
             (confirm 1 "A" 100 (acquired 1 "A" 0 initState)).2);
      [apply surjective_pairing | vm_compute; reflexivity]. }
  destruct (H2 booked 1 bookedSeat Hb) as (Hl & Hu & Hc & _); [reflexivity|].
  split; [exact Hb|]. split; [apply Hl|]. split; [apply Hu | apply Hc].
Defined.

(** C8.  State shape.  In the initial state, and after every event run in a
    state that has the property, every seat record has [lockedBy] exactly
    when its status is Locked and [lockExpiresAt] exactly when its status is
    Locked; hence in every reachable state. *)
Theorem shape_invariant :
  shapeOk initState
  ∧ (∀ op st st' r, shapeOk st → exec op st = Some (st', r) → shapeOk st')
  ∧ (∀ st, reachable st → shapeOk st).
Proof.
  split; [apply shapeOk_init|]. split; [apply exec_shapeOk|].
  intros st Hr. by apply reachable_invariants.
Qed.

Lemma shape_invariant_witness :
  shapeOk (acquired 1 "A" 0 initState)
  ∧ shapeOk (confirm 1 "A" 100 (acquired 1 "A" 0 initState)).1.
Proof.
  destruct shape_invariant as (H0 & Hstep & Hreach).
  assert (reachable (acquired 1 "A" 0 initState)) as Hr.
  { apply (reachable_step initState (OpLock 1 "A" 0) _ (Some (okLocked 1)));
      [apply reachable_init | vm_compute; reflexivity]. }
  split; [by apply Hreach|].
  apply (Hstep (OpConfirm 1 "A" 100) (acquired 1 "A" 0 initState) _
           (Some (mkResponse 200 (Message (msgBooked 1)))));
    [by apply Hreach | vm_compute; reflexivity].
Defined.

(** C9.  Release is idempotent.
    (1) [unlock] of an available seat answers 200 and changes nothing.
    (2) [unlock] of a locked seat answers 200, writes
        [{ status: 'available' }] to the seat and clears the timer stored in
        its record; in a reachable state no timer is pending for the seat
        afterwards.
    (3) For a seat that is not booked, [unlock] twice in a row answers 200
        both times, and the second one leaves the state the first one
        produced, in which the seat is available. *)
Theorem release_idempotent :
  (∀ st id seat,
     seats st !! id = Some seat → status seat = Available →
     unlock id st = (st, mkResponse 200 (Message (msgAlreadyAvailable id))))
  ∧ (∀ st id seat,
       seats st !! id = Some seat → status seat = Locked →
       let released := setSeat id availableSeat (clearSeatTimer id st) in
       unlock id st = (released, mkResponse 200 (Message (msgCleared id)))
       ∧ seats released !! id = Some availableSeat
       ∧ (∀ h, timeoutId seat = Some h → timers released !! h = None)
       ∧ (reachable st →
          ∀ h t, timers released !! h = Some t → timerSeat t ≠ id))
  ∧ (∀ st id seat,
       seats st !! id = Some seat → status seat ≠ Booked →
       code (unlock id st).2 = 200
       ∧ code (unlock id (unlock id st).1).2 = 200
       ∧ (unlock id (unlock id st).1).1 = (unlock id st).1
       ∧ statusOf (unlock id st).1 id = Some Available).
Proof.
  split; [|split].
  - intros st id seat. apply unlock_available.
  - intros st id seat Hs Hst released.
    split; [by eapply unlock_locked|].
    split; [subst released; by rewrite seats_release, lookup_insert_eq|].
    split.
    + intros h Hh. subst released. unfold setSeat. cbn [timers].
      rewrite timers_clearSeatTimer, Hs. simpl.
      by rewrite bool_decide_eq_true_2.
    + intros [_ Htm]%reachable_invariants h t Ht Hid.
      subst released. unfold setSeat in Ht. cbn [timers] in Ht.
      apply timers_clearSeatTimer_Some in Ht as [Ht Hne].
      destruct (Htm h t Ht) as (_ & seat' & Hs' & _ & Hh).
      rewrite Hid, Hs in Hs'. apply Hne. rewrite Hs. simpl. by simplify_eq.
  - intros st id seat Hs Hst. destruct (status seat) eqn:Hst'; [| |done].
    + rewrite (unlock_available _ _ _ Hs Hst'). simpl.
      rewrite (unlock_available _ _ _ Hs Hst'). simpl.
      repeat split. unfold statusOf. by rewrite Hs; simpl; rewrite Hst'.
    + rewrite (unlock_locked _ _ _ Hs Hst'). simpl.
      assert (seats (setSeat id availableSeat (clearSeatTimer id st)) !! id
              = Some availableSeat) as Hr
        by by rewrite seats_release, lookup_insert_eq.
      rewrite (unlock_available _ _ _ Hr eq_refl). simpl.
      repeat split. apply statusOf_write.
Qed.

Lemma release_idempotent_witness :
  unlock 1 initState
  = (initState, mkResponse 200 (Message (msgAlreadyAvailable 1)))
  ∧ unlock 1 (acquired 1 "A" 0 initState)
    = (setSeat 1 availableSeat (clearSeatTimer 1 (acquired 1 "A" 0 initState)),
       mkResponse 200 (Message (msgCleared 1)))
  ∧ (unlock 1 (unlock 1 (acquired 1 "A" 0 initState)).1).1
    = (unlock 1 (acquired 1 "A" 0 initState)).1.
Proof.
  destruct release_idempotent as (H1 & H2 & H3).
  split; [|split].
  - apply (H1 initState 1 availableSeat); [vm_compute; reflexivity | reflexivity].
  - apply (H2 (acquired 1 "A" 0 initState) 1
             (mkSeat Locked (Some "A") (Some 60000) (Some 0%nat)));
      [vm_compute; reflexivity | reflexivity].
  - apply (H3 (acquired 1 "A" 0 initState) 1
             (mkSeat Locked (Some "A") (Some 60000) (Some 0%nat)));
      [vm_compute; reflexivity | discriminate].
Defined.

(** C10.  Per-seat frame.  Every event (a lock, confirm or unlock request
    for seat [s], the callback of a timer armed for [s], a listing) leaves
    the set of seat ids as it is and changes no record other than that of
    [s], whatever it answers.  In a reachable state every event yields a
    state, and the seat ids are those of the initial store, 1..TOTAL_SEATS. *)
Theorem per_seat_frame :
  (∀ op st st' r,
     exec op st = Some (st', r) →
     dom (seats st') = dom (seats st)
     ∧ ∀ j, target op st ≠ Some j → seats st' !! j = seats st !! j)
  ∧ (∀ op st, reachable st → ∃ st' r, exec op st = Some (st', r))
  ∧ (∀ st id, reachable st →
              is_Some (seats st !! id) ↔ 1 ≤ id ≤ TOTAL_SEATS).
Proof.
  split; [|split].
  - intros op st st' r. apply exec_frame.
  - intros op st. apply exec_total.
  - intros st id Hr. rewrite <- elem_of_dom, (reachable_dom _ Hr), elem_of_dom.
    rewrite initSeats_lookup. case_decide; split; try done; try (by intros [? ?]); eauto.
Qed.

Lemma per_seat_frame_witness :
  seats (acquired 1 "A" 0 initState) !! 2 = seats initState !! 2
  ∧ dom (seats (acquired 1 "A" 0 initState)) = dom (seats initState).
Proof.
  destruct per_seat_frame as (H1 & _ & _).
  destruct (H1 (OpLock 1 "A" 0) initState (acquired 1 "A" 0 initState)
              (Some (okLocked 1))) as [Hdom Hfr]; [vm_compute; reflexivity|].
  split; [|exact Hdom]. apply Hfr. discriminate.
Defined.

(** * A run of the server

    Seat 1 is locked by "A" at 0, "B" may not confirm it, "A" books it at
    59999; seat 2 is locked by "C" at 0, the confirmation at 60001 comes too
    late and "D" takes the seat at 60002. *)

Example run_lock_1 :
  lock 1 "A" 0 initState = Some (acquired 1 "A" 0 initState, okLocked 1)
  ∧ seats (acquired 1 "A" 0 initState) !! 1
    = Some (mkSeat Locked (Some "A") (Some 60000) (Some 0%nat)).
Proof. split; vm_compute; reflexivity. Qed.

Example run_confirm_1 :
  (confirm 1 "B" 100 (acquired 1 "A" 0 initState)).2
  = mkResponse 403 (Message "Seat locked by another user.")
  ∧ (confirm 1 "A" 59999 (acquired 1 "A" 0 initState)).2
    = mkResponse 200 (Message "Seat 1 booked successfully!")
  ∧ statusOf (confirm 1 "A" 59999 (acquired 1 "A" 0 initState)).1 1 = Some Booked.
Proof. repeat split; vm_compute; reflexivity. Qed.

Example run_seat_2 :
  execAll [OpLock 1 "A" 0; OpLock 2 "C" 0; OpConfirm 2 "C" 60001] initState
  ≫= (λ st, statusOf st 2) = Some Available
  ∧ (execAll [OpLock 1 "A" 0; OpLock 2 "C" 0; OpConfirm 2 "C" 60001;
              OpLock 2 "D" 60002; OpFire 1%nat 60050; OpFire 0%nat 60050] initState
     ≫= (λ st, seats st !! 2))
    = Some (mkSeat Locked (Some "D") (Some 120002) (Some 2%nat))
  ∧ (execAll [OpLock 1 "A" 0; OpLock 2 "C" 0; OpConfirm 2 "C" 60001;
              OpLock 2 "D" 60002; OpFire 1%nat 60050; OpFire 0%nat 60050] initState
     ≫= (λ st, seats st !! 1))
    = Some availableSeat.
Proof. repeat split; vm_compute; reflexivity. Qed.

Example run_unknown_seat :
  lock 11 "A" 0 initState
  = Some (initState, mkResponse 404 (Message "Seat 11 does not exist."))
  ∧ requestUser None = "anonymous"
  ∧ requestUser (Some "U123") = "U123".
Proof. repeat split; vm_compute; reflexivity. Qed.

(** * The seat automaton *)

Section SeatSteps.
Implicit Types (st : State) (id : Z) (seat : Seat) (h : Handle).

Lemma nextHandle_release st id x :
  nextHandle (setSeat id x (clearSeatTimer id st)) = nextHandle st.
Proof. unfold setSeat. cbn [nextHandle]. apply nextHandle_clearSeatTimer. Qed.

Lemma acquired_lookup st1 id user now :
  seats (acquired id user now st1) !! id
  = Some (mkSeat Locked (Some user) (Some (now + LOCK_TTL)) (Some (nextHandle st1))).
Proof. unfold acquired. cbn [seats]. apply lookup_insert_eq. Qed.

Lemma release_lookup st id x :
  seats (setSeat id x (clearSeatTimer id st)) !! id = Some x.
Proof. by rewrite seats_release, lookup_insert_eq. Qed.

(** Every event acts on every seat record by one of the steps of
    [seatStep]. *)
Lemma exec_seatStep op st st' r id seat :
  exec op st = Some (st', r) → seats st !! id = Some seat →
  ∃ seat', seats st' !! id = Some seat' ∧ seatStep st id seat op r seat'.
Proof.
  intros Hex Hs.
  destruct (decide (target op st = Some id)) as [Ht|Ht].
  - destruct op as [|id' user now|id' user now|id'|h now]; simpl in Ht, Hex.
    + done.
    + destruct (lock id' user now st) as [[st1 r1]|] eqn:Hl; simplify_eq/=.
      destruct (status seat) eqn:Hst.
      * erewrite lock_available in Hl by done. simplify_eq.
        eexists. split; [apply acquired_lookup|]. by constructor.
      * destruct (expiredAt seat now) eqn:He.
        -- erewrite lock_lapsed in Hl by done. simplify_eq.
           eexists. split; [apply acquired_lookup|].
           rewrite nextHandle_release. by constructor.
        -- erewrite lock_held in Hl by done. simplify_eq.
           eexists. split; [done|]. constructor.
      * erewrite lock_booked in Hl by done. simplify_eq.
        eexists. split; [done|]. constructor.
    + destruct (confirm id' user now st) as [st1 r1] eqn:Hc; simplify_eq/=.
      destruct (status seat) eqn:Hst.
      * erewrite confirm_not_locked in Hc by (done || congruence). simplify_eq.
        eexists. split; [done|]. constructor.
      * destruct (expiredAt seat now) eqn:He.
        -- erewrite confirm_lapsed in Hc by done. simplify_eq.
           eexists. split; [apply release_lookup|]. by constructor.
        -- destruct (decide (lockedBy seat = Some user)) as [Hu|Hu].
           ++ erewrite confirm_owner in Hc by done. simplify_eq.
              eexists. split; [apply release_lookup|]. by constructor.
           ++ erewrite confirm_forbidden in Hc by done. simplify_eq.
              eexists. split; [done|]. constructor.
      * erewrite confirm_not_locked in Hc by (done || congruence). simplify_eq.
        eexists. split; [done|]. constructor.
    + destruct (unlock id' st) as [st1 r1] eqn:Hu; simplify_eq/=.
      destruct (status seat) eqn:Hst.
      * erewrite unlock_available in Hu by done. simplify_eq.
        eexists. split; [done|]. constructor.
      * erewrite unlock_locked in Hu by done. simplify_eq.
        eexists. split; [apply release_lookup|]. by constructor.
      * erewrite unlock_booked in Hu by done. simplify_eq.
        eexists. split; [done|]. constructor.
    + destruct (fireTimer h now st) as [st1|] eqn:Hf; simplify_eq/=.
      unfold fireTimer in Hf. destruct (timers st !! h) as [t|] eqn:Hh; simplify_eq/=.
      erewrite expiryCallback_cases in Hf by (cbn [seats]; exact Hs).
      injection Hf as <-.
      unfold lockedAndExpired.
      destruct (status seat) eqn:Hst; cbn [bool_decide decide_rel andb];
        [eexists; split; [done|]; constructor | | eexists; split; [done|]; constructor].
      rewrite bool_decide_eq_true_2 by done. cbn [andb].
      destruct (expiredAt seat now) eqn:He.
      * eexists. split; [unfold setSeat; cbn [seats]; apply lookup_insert_eq|].
        by econstructor.
      * eexists. split; [done|]. constructor.
  - destruct (exec_frame _ _ _ _ Hex) as [_ Hfr].
    exists seat. split; [by rewrite Hfr|]. constructor.
Qed.
End SeatSteps.

(** X1.  The status of a seat moves along the automaton
    Available → Locked → Booked, Locked → Available and nothing else; each
    move is made by the event and gets the answer listed here.  In
    particular no event books an available seat and none changes a booked
    one. *)
Theorem status_transitions op st st' r id s s' :
  exec op st = Some (st', r) →
  statusOf st id = Some s → statusOf st' id = Some s' →
  s' = s
  ∨ (s = Available ∧ s' = Locked
     ∧ ∃ user now, op = OpLock id user now ∧ r = Some (okLocked id))
  ∨ (s = Locked ∧ s' = Booked
     ∧ ∃ user now, op = OpConfirm id user now
                   ∧ r = Some (mkResponse 200 (Message (msgBooked id))))
  ∨ (s = Locked ∧ s' = Available
     ∧ ((∃ user now, op = OpConfirm id user now
                     ∧ r = Some (mkResponse 408 (Message msgExpired)))
        ∨ (op = OpUnlock id ∧ r = Some (mkResponse 200 (Message (msgCleared id))))
        ∨ (∃ h now, op = OpFire h now ∧ r = None))).
Proof.
  intros Hex (seat & Hs & Hst)%statusOf_Some (seat' & Hs' & Hst')%statusOf_Some.
  destruct (exec_seatStep _ _ _ _ _ _ Hex Hs) as (seat2 & Hs2 & Hstep).
  rewrite Hs' in Hs2. injection Hs2 as <-.
  destruct Hstep; simpl in *; subst.
  - by left.
  - right; left. rewrite H. eauto 8.
  - left. by rewrite H.
  - right; right; right. rewrite H. eauto 10.
  - right; right; left. rewrite H. eauto 8.
  - right; right; right. rewrite H. eauto 10.
  - right; right; right. rewrite H1. eauto 10.
Qed.

Lemma status_transitions_witness :
  Locked = Available
  ∨ (Available = Available ∧ Locked = Locked
     ∧ ∃ user now, OpLock 1 "A" 0 = OpLock 1 user now
                   ∧ Some (okLocked 1) = Some (okLocked 1))
  ∨ (Available = Locked ∧ Locked = Booked
     ∧ ∃ user now, OpLock 1 "A" 0 = OpConfirm 1 user now
                   ∧ Some (okLocked 1)
                     = Some (mkResponse 200 (Message (msgBooked 1))))
  ∨ (Available = Locked ∧ Locked = Available
     ∧ ((∃ user now, OpLock 1 "A" 0 = OpConfirm 1 user now
                     ∧ Some (okLocked 1)
                       = Some (mkResponse 408 (Message msgExpired)))
        ∨ (OpLock 1 "A" 0 = OpUnlock 1
           ∧ Some (okLocked 1) = Some (mkResponse 200 (Message (msgCleared 1))))
        ∨ (∃ h now, OpLock 1 "A" 0 = OpFire h now ∧ Some (okLocked 1) = None))).
Proof.
  apply (status_transitions (OpLock 1 "A" 0) initState
           (acquired 1 "A" 0 initState) (Some (okLocked 1)) 1 Available Locked);
    vm_compute; reflexivity.
Defined.

(** X2.  A seat becomes booked only through a [confirm] request for it, made by
    the caller its record names as holder, at a clock reading at which the
    lock has not lapsed, and answered 200. *)
Theorem booked_only_by_holder op st st' r id seat :
  exec op st = Some (st', r) →
  seats st !! id = Some seat → status seat ≠ Booked →
  statusOf st' id = Some Booked →
  ∃ user now,
    op = OpConfirm id user now
    ∧ status seat = Locked
    ∧ lockedBy seat = Some user
    ∧ expiredAt seat now = false
    ∧ r = Some (mkResponse 200 (Message (msgBooked id)))
    ∧ seats st' !! id = Some bookedSeat.
Proof.
  intros Hex Hs Hnb (seat' & Hs' & Hst')%statusOf_Some.
  destruct (exec_seatStep _ _ _ _ _ _ Hex Hs) as (seat2 & Hs2 & Hstep).
  rewrite Hs' in Hs2. injection Hs2 as <-.
  destruct Hstep; simpl in *; try done.
  exists user, now. by rewrite Hs'.
Qed.

Lemma booked_only_by_holder_witness :
  ∃ user now,
    OpConfirm 1 "A" 100 = OpConfirm 1 user now
    ∧ status (mkSeat Locked (Some "A") (Some 60000) (Some 0%nat)) = Locked
    ∧ lockedBy (mkSeat Locked (Some "A") (Some 60000) (Some 0%nat)) = Some user
    ∧ expiredAt (mkSeat Locked (Some "A") (Some 60000) (Some 0%nat)) now = false
    ∧ Some (confirm 1 "A" 100 (acquired 1 "A" 0 initState)).2
      = Some (mkResponse 200 (Message (msgBooked 1)))
    ∧ seats (confirm 1 "A" 100 (acquired 1 "A" 0 initState)).1 !! 1
      = Some bookedSeat.
Proof.
  apply (booked_only_by_holder (OpConfirm 1 "A" 100) (acquired 1 "A" 0 initState));
    [vm_compute; reflexivity | vm_compute; reflexivity | discriminate
    | vm_compute; reflexivity].
Defined.

(** X3.  The holder or the expiry of a locked seat changes, the seat staying
    locked, only through a [lock] request whose clock reading is at or past
    the stored, non-zero expiry instant: a lock is not taken over before it
    lapses. *)
Theorem holder_changes_only_after_lapse op st st' r id seat seat' :
  exec op st = Some (st', r) →
  seats st !! id = Some seat → seats st' !! id = Some seat' →
  status seat = Locked → status seat' = Locked → seat' ≠ seat →
  ∃ user now e,
    op = OpLock id user now
    ∧ lockExpiresAt seat = Some e ∧ e ≠ 0 ∧ e ≤ now
    ∧ seat' = mkSeat Locked (Some user) (Some (now + LOCK_TTL))
                (Some (nextHandle st)).
Proof.
  intros Hex Hs Hs' Hst Hst' Hne.
  destruct (exec_seatStep _ _ _ _ _ _ Hex Hs) as (seat2 & Hs2 & Hstep).
  rewrite Hs' in Hs2. injection Hs2 as <-.
  destruct Hstep; simpl in *; try done; try congruence.
  apply expiredAt_spec in H0 as (e & He & H0 & Hle).
  exists user, now, e. done.
Qed.

Lemma holder_changes_only_after_lapse_witness :
  ∃ user now e,
    OpLock 1 "B" 60000 = OpLock 1 user now
    ∧ lockExpiresAt (mkSeat Locked (Some "A") (Some 60000) (Some 0%nat)) = Some e
    ∧ e ≠ 0 ∧ e ≤ now
    ∧ mkSeat Locked (Some "B") (Some 120000) (Some 1%nat)
      = mkSeat Locked (Some user) (Some (now + LOCK_TTL))
          (Some (nextHandle (acquired 1 "A" 0 initState))).
Proof.
  apply (holder_changes_only_after_lapse (OpLock 1 "B" 60000)
           (acquired 1 "A" 0 initState)
           (acquired 1 "B" 60000
              (setSeat 1 availableSeat (clearSeatTimer 1 (acquired 1 "A" 0 initState))))
           (Some (okLocked 1)) 1);
    [vm_compute; reflexivity | vm_compute; reflexivity | vm_compute; reflexivity
    | reflexivity | reflexivity | discriminate].
Defined.

Lemma keepsLock_step op st st' r id A e seat :
  exec op st = Some (st', r) → seats st !! id = Some seat →
  status seat = Locked → lockedBy seat = Some A → lockExpiresAt seat = Some e →
  keepsLock id A e op → seats st' !! id = Some seat.
Proof.
  intros Hex Hs Hst Hu He Hk.
  destruct (exec_seatStep _ _ _ _ _ _ Hex Hs) as (seat2 & Hs2 & Hstep).
  rewrite Hs2. f_equal.
  destruct Hstep as [| |user now _ Hx|user now _ Hx|user now _ _ Hx'| |h now t _ _ _ Hx];
    simpl in Hk; try done; try congruence.
  - rewrite (expiredAt_false_lt _ _ _ He) in Hx; [done|]. by apply Hk.
  - rewrite (expiredAt_false_lt _ _ _ He) in Hx; [done|]. by apply Hk.
  - destruct Hk as [_ Hk]; [done|]. congruence.
  - rewrite (expiredAt_false_lt _ _ _ He) in Hx; done.
Qed.

(** X4.  A lock survives every run of events that does not end it: while no
    event is an unlock of the seat or a confirm of it by the holder, and
    every lock or confirm request for the seat and every timer firing reads
    a clock before the expiry instant, the record of the seat is unchanged
    and the holder's confirm at any time before the expiry is answered 200. *)
Theorem lock_survives ops st st' id A t0 :
  holdsLock st id A t0 →
  Forall (keepsLock id A (t0 + LOCK_TTL)) ops →
  execAll ops st = Some st' →
  seats st' !! id = seats st !! id
  ∧ holdsLock st' id A t0
  ∧ ∀ t, t < t0 + LOCK_TTL →
         (confirm id A t st').2 = mkResponse 200 (Message (msgBooked id)).
Proof.
  intros Hh Hall Hrun.
  assert (seats st' !! id = seats st !! id) as Heq.
  { destruct Hh as (seat & Hs & Hst & Hu & He). rewrite Hs.
    revert st Hs Hrun. induction Hall as [|op ops Hk _ IH]; intros st Hs; simpl.
    - by intros [= <-].
    - destruct (exec op st) as [[st1 r]|] eqn:Hex; [|done]. simpl.
      apply IH. by eapply keepsLock_step. }
  assert (holdsLock st' id A t0) as Hh'.
  { destruct Hh as (seat & Hs & H). exists seat. by rewrite Heq. }
  split; [done|]. split; [done|]. intros t Hlt.
  destruct (holdsLock_live _ _ _ _ _ Hh' Hlt) as (seat & Hs & Hst & Hu & He).
  by erewrite confirm_owner.
Qed.

Lemma lock_survives_witness :
  (confirm 1 "A" 59999
     (default initState
        (execAll [OpLock 2 "B" 5; OpConfirm 1 "B" 10; OpLock 1 "C" 20;
                  OpUnlock 2; OpFire 0%nat 30; OpList]
           (acquired 1 "A" 0 initState)))).2
  = mkResponse 200 (Message (msgBooked 1)).
Proof.
  destruct (lock_survives
              [OpLock 2 "B" 5; OpConfirm 1 "B" 10; OpLock 1 "C" 20;
               OpUnlock 2; OpFire 0%nat 30; OpList]
              (acquired 1 "A" 0 initState)
              (default initState
                 (execAll [OpLock 2 "B" 5; OpConfirm 1 "B" 10; OpLock 1 "C" 20;
                           OpUnlock 2; OpFire 0%nat 30; OpList]
                    (acquired 1 "A" 0 initState)))
              1 "A" 0) as (_ & _ & Hc).
  - exists (mkSeat Locked (Some "A") (Some 60000) (Some 0%nat)).
    repeat split; vm_compute; reflexivity.
  - repeat constructor; simpl; intros; try split; try lia; discriminate.
  - vm_compute. reflexivity.
  - apply Hc. reflexivity.
Defined.

(** * Answers and the store *)

Lemma nextHandle_acquired st1 id user now :
  nextHandle (acquired id user now st1) = S (nextHandle st1).
Proof. done. Qed.

Lemma timers_acquired st1 id user now :
  timers (acquired id user now st1) !! nextHandle st1
  = Some (mkTimer id (LOCK_TTL + 50)).
Proof. unfold acquired. cbn [timers]. apply lookup_insert_eq. Qed.

Lemma lock_nextHandle st id user now st' r :
  lock id user now st = Some (st', r) →
  (code r = 200 ∧ nextHandle st' = S (nextHandle st))
  ∨ (code r ≠ 200 ∧ st' = st).
Proof.
  intros Hl. destruct (seats st !! id) as [seat|] eqn:Hs.
  - destruct (status seat) eqn:Hst.
    + erewrite lock_available in Hl by done. simplify_eq. by left.
    + destruct (expiredAt seat now) eqn:He.
      * erewrite lock_lapsed in Hl by done. simplify_eq. left.
        split; [done|]. by rewrite nextHandle_acquired, nextHandle_release.
      * erewrite lock_held in Hl by done. simplify_eq. by right.
    + erewrite lock_booked in Hl by done. simplify_eq. by right.
  - rewrite lock_not_found in Hl by done. simplify_eq. by right.
Qed.

(** X5.  A request that is refused changes nothing.  [lock] answered other than
    200 leaves the whole state as it was, and arms a timer exactly when it
    answers 200; [confirm] answered other than 200 or 408 and [unlock]
    answered other than 200 leave the whole state as it was; [GET /seats]
    never changes it. *)
Theorem refusals_leave_state :
  (∀ st id user now st' r,
     lock id user now st = Some (st', r) →
     (code r ≠ 200 → st' = st)
     ∧ (code r = 200 → nextHandle st' = S (nextHandle st)
                        ∧ timers st' !! nextHandle st
                          = Some (mkTimer id (LOCK_TTL + 50))))
  ∧ (∀ st id user now,
       code (confirm id user now st).2 ≠ 200 →
       code (confirm id user now st).2 ≠ 408 →
       (confirm id user now st).1 = st)
  ∧ (∀ st id, code (unlock id st).2 ≠ 200 → (unlock id st).1 = st)
  ∧ (∀ st, (listSeats st).1 = st).
Proof.
  split; [|split; [|split]].
  - intros st id user now st' r Hl. split.
    + intros Hc. by destruct (lock_nextHandle _ _ _ _ _ _ Hl) as [[? _]|[_ ?]].
    + intros Hc. destruct (lock_ok_inv _ _ _ _ _ _ Hl Hc) as (_ & st1 & -> & Hst1).
      rewrite nextHandle_acquired.
      destruct Hst1 as [-> | ->].
      * by rewrite timers_acquired.
      * split; [by rewrite nextHandle_release|].
        rewrite <- (nextHandle_release st id availableSeat).
        apply timers_acquired.
  - intros st id user now. unfold confirm.
    destruct (seats st !! id) as [seat|]; [|done].
    repeat case_match; simpl; done.
  - intros st id. unfold unlock.
    destruct (seats st !! id) as [seat|]; [|done].
    destruct (status seat); simpl; done.
  - done.
Qed.

Lemma refusals_leave_state_witness :
  nextHandle (acquired 1 "A" 0 initState) = S (nextHandle initState)
  ∧ (confirm 1 "B" 100 (acquired 1 "A" 0 initState)).1
    = acquired 1 "A" 0 initState
  ∧ (unlock 11 initState).1 = initState.
Proof.
  destruct refusals_leave_state as (H1 & H2 & H3 & _).
  split; [|split].
  - destruct (H1 initState 1 "A" 0 (acquired 1 "A" 0 initState) (okLocked 1))
      as [_ Hok]; [vm_compute; reflexivity|].
    destruct Hok as [Hn _]; [reflexivity | exact Hn].
  - apply H2; vm_compute; discriminate.
  - apply H3. vm_compute. discriminate.
Defined.



(** X7.  The store the start-up loop builds holds exactly the ids
    1..TOTAL_SEATS, each with the record [{ status: 'available' }]; no timer
    is pending. *)
Theorem initial_store :
  (∀ id, seats initState !! id
         = if decide (1 ≤ id ≤ TOTAL_SEATS) then Some availableSeat else None)
  ∧ timers initState = ∅
  ∧ size (seats initState) = Z.to_nat TOTAL_SEATS.
Proof.
  split; [apply initSeats_lookup|]. split; [done|]. vm_compute. reflexivity.
Qed.

(** * The records of a reachable store *)

Section Records.
Implicit Types (st : State) (id : Z) (seat : Seat) (h : Handle).

Lemma handleOk_init : handleOk initState.
Proof.
  intros id seat. unfold initState. cbn [seats]. rewrite initSeats_lookup.
  case_decide; [|done]. intros [= <-]. split; [|done].
  split; simpl; [by intros [? ?] | done].
Qed.

Lemma exec_nextHandle_le op st st' r :
  exec op st = Some (st', r) → (nextHandle st ≤ nextHandle st')%nat.
Proof.
  destruct op as [|id user now|id user now|id|h now]; simpl; intros Hex.
  - by simplify_eq.
  - destruct (lock id user now st) as [[st1 r1]|] eqn:Hl; simplify_eq/=.
    destruct (lock_nextHandle _ _ _ _ _ _ Hl) as [[_ ->]|[_ ->]]; lia.
  - destruct (confirm id user now st) as [st1 r1] eqn:Hc; simplify_eq/=.
    destruct (confirm_cases st id user now) as [H|(seat & _ & _ & [H|H])];
      rewrite Hc in H; simpl in H; subst st'; by rewrite ?nextHandle_release.
  - destruct (unlock id st) as [st1 r1] eqn:Hu; simplify_eq/=.
    destruct (unlock_cases st id) as [H|(seat & _ & _ & H)];
      rewrite Hu in H; simpl in H; subst st'; by rewrite ?nextHandle_release.
  - destruct (fireTimer h now st) as [st1|] eqn:Hf; simplify_eq/=.
    unfold fireTimer in Hf. destruct (timers st !! h) as [t|]; simplify_eq/=; [|done].
    unfold expiryCallback in Hf. simpl in Hf.
    destruct (seats st !! timerSeat t) as [seat|]; [|done].
    destruct (lockedAndExpired seat now); by simplify_eq/=.
Qed.

Lemma exec_handleOk op st st' r :
  handleOk st → exec op st = Some (st', r) → handleOk st'.
Proof.
  intros Hok Hex id seat' Hs'.
  pose proof (exec_nextHandle_le _ _ _ _ Hex) as Hle.
  assert (is_Some (seats st !! id)) as [seat Hs].
  { apply elem_of_dom. destruct (exec_frame _ _ _ _ Hex) as [<- _].
    apply elem_of_dom. eauto. }
  destruct (exec_seatStep _ _ _ _ _ _ Hex Hs) as (seat2 & Hs2 & Hstep).
  rewrite Hs' in Hs2. injection Hs2 as <-.
  destruct (Hok id seat Hs) as [Hiff Hlt].
  assert (∀ user now, op = OpLock id user now → r = Some (okLocked id) →
                      nextHandle st' = S (nextHandle st)) as Hnew.
  { intros user now -> ->. simpl in Hex.
    destruct (lock id user now st) as [[st1 r1]|] eqn:Hl; simplify_eq/=.
    by destruct (lock_nextHandle _ _ _ _ _ _ Hl) as [[_ ?]|[? _]]. }
  destruct Hstep; simpl.
  - split; [done|]. intros h Hh. specialize (Hlt h Hh). lia.
  - split; [split; eauto|]. intros h [= <-]. erewrite Hnew by done. lia.
  - split; [split; eauto|]. intros h [= <-]. erewrite Hnew by done. lia.
  - split; [|done]. split; [by intros [? ?] | done].
  - split; [|done]. split; [by intros [? ?] | done].
  - split; [|done]. split; [by intros [? ?] | done].
  - split; [|done]. split; [by intros [? ?] | done].
Qed.

Lemma reachable_handleOk st : reachable st → handleOk st.
Proof.
  induction 1 as [|st op st' r _ IH Hex]; [apply handleOk_init|].
  by eapply exec_handleOk.
Qed.

(** In a reachable state a record that is not locked is the plain
    literal. *)
Lemma reachable_available st id seat :
  reachable st → seats st !! id = Some seat → status seat = Available →
  seat = availableSeat.
Proof.
  intros Hr Hs Hst.
  destruct (reachable_invariants _ Hr) as [Hsh _].
  destruct (Hsh id seat Hs) as [Hu He].
  destruct (reachable_handleOk _ Hr id seat Hs) as [Hh _].
  destruct seat as [s [u|] [e|] [h|]]; simpl in *; subst;
    try (by (destruct Hu as [Hu _]; discriminate Hu; eauto));
    try (by (destruct He as [He _]; discriminate He; eauto));
    try (by (destruct Hh as [Hh _]; discriminate Hh; eauto)).
  done.
Qed.
End Records.

(** X8.  In every reachable state each stored record is one of the three object
    literals the handlers write: [{ status: 'available' }],
    [{ status: 'booked' }], or a locked record with a holder, an expiry
    instant and the handle of a timer that [setTimeout] has given out. *)
Theorem record_forms st id seat :
  reachable st → seats st !! id = Some seat →
  match status seat with
  | Available => seat = availableSeat
  | Booked => seat = bookedSeat
  | Locked =>
      ∃ user e h, seat = mkSeat Locked (Some user) (Some e) (Some h)
                  ∧ (h < nextHandle st)%nat
  end.
Proof.
  intros Hr Hs.
  destruct (reachable_invariants _ Hr) as [Hsh _].
  destruct (Hsh id seat Hs) as [[Hu1 Hu2] [He1 He2]].
  destruct (reachable_handleOk _ Hr id seat Hs) as [[Hh1 Hh2] Hlt].
  destruct seat as [s u e h]; simpl in *. destruct s.
  - destruct u as [u|]; [by specialize (Hu1 (mk_is_Some _ _ eq_refl))|].
    destruct e as [e|]; [by specialize (He1 (mk_is_Some _ _ eq_refl))|].
    destruct h as [h|]; [by specialize (Hh1 (mk_is_Some _ _ eq_refl))|]. done.
  - destruct (Hu2 eq_refl) as [u' ->]. destruct (He2 eq_refl) as [e' ->].
    destruct (Hh2 eq_refl) as [h' ->]. exists u', e', h'. split; [done|]. by apply Hlt.
  - destruct u as [u|]; [by specialize (Hu1 (mk_is_Some _ _ eq_refl))|].
    destruct e as [e|]; [by specialize (He1 (mk_is_Some _ _ eq_refl))|].
    destruct h as [h|]; [by specialize (Hh1 (mk_is_Some _ _ eq_refl))|]. done.
Qed.

Lemma record_forms_witness :
  ∃ user e h,
    mkSeat Locked (Some "A") (Some 60000) (Some 0%nat)
    = mkSeat Locked (Some user) (Some e) (Some h)
    ∧ (h < nextHandle (acquired 1 "A" 0 initState))%nat.
Proof.
  apply (record_forms (acquired 1 "A" 0 initState) 1
           (mkSeat Locked (Some "A") (Some 60000) (Some 0%nat))).
  - apply (reachable_step initState (OpLock 1 "A" 0) _ (Some (okLocked 1)));
      [apply reachable_init | vm_compute; reflexivity].
  - vm_compute. reflexivity.
Defined.

(** X9.  Timers do not pile up.  In every reachable state a pending timer belongs
    to a seat that is locked, a seat has at most one pending timer, and so
    at most TOTAL_SEATS timers are pending. *)
Theorem timers_bounded st :
  reachable st →
  (∀ h t, timers st !! h = Some t → statusOf st (timerSeat t) = Some Locked)
  ∧ (∀ h1 h2 t1 t2,
       timers st !! h1 = Some t1 → timers st !! h2 = Some t2 →
       timerSeat t1 = timerSeat t2 → h1 = h2)
  ∧ (size (timers st) ≤ Z.to_nat TOTAL_SEATS)%nat.
Proof.
  intros Hr. destruct (reachable_invariants _ Hr) as [_ Htm].
  assert (∀ h1 h2 t1 t2,
            timers st !! h1 = Some t1 → timers st !! h2 = Some t2 →
            timerSeat t1 = timerSeat t2 → h1 = h2) as Hinj.
  { intros h1 h2 t1 t2 H1 H2 Heq.
    destruct (Htm _ _ H1) as (_ & s1 & Hs1 & _ & Hh1).
    destruct (Htm _ _ H2) as (_ & s2 & Hs2 & _ & Hh2).
    rewrite Heq, Hs2 in Hs1. congruence. }
  split; [|split; [done|]].
  - intros h t Ht. destruct (Htm _ _ Ht) as (_ & seat & Hs & Hst & _).
    apply statusOf_Some. eauto.
  - rewrite <- length_map_to_list.
    rewrite <- (length_fmap (λ p, timerSeat p.2) (map_to_list (timers st))).
    transitivity (length (elements (dom (seats st)))).
    + apply submseteq_length, NoDup_submseteq.
      * apply NoDup_fmap_2_strong; [|apply NoDup_map_to_list].
        intros [h1 t1] [h2 t2] H1%elem_of_map_to_list H2%elem_of_map_to_list Heq.
        simpl in Heq. pose proof (Hinj _ _ _ _ H1 H2 Heq) as ->. congruence.
      * intros j ([h t] & -> & Ht%elem_of_map_to_list)%list_elem_of_fmap.
        apply elem_of_elements, elem_of_dom. simpl.
        destruct (Htm _ _ Ht) as (_ & seat & Hs & _). eauto.
    + rewrite (reachable_dom _ Hr). vm_compute. lia.
Qed.

Lemma timers_bounded_witness :
  statusOf (acquired 1 "A" 0 initState) 1 = Some Locked
  ∧ (size (timers (acquired 1 "A" 0 initState)) ≤ Z.to_nat TOTAL_SEATS)%nat.
Proof.
  destruct (timers_bounded (acquired 1 "A" 0 initState)) as (H1 & _ & H3).
  - apply (reachable_step initState (OpLock 1 "A" 0) _ (Some (okLocked 1)));
      [apply reachable_init | vm_compute; reflexivity].
  - split; [|exact H3].
    apply (H1 0%nat (mkTimer 1 (LOCK_TTL + 50))). vm_compute. reflexivity.
Defined.

(** * Seats do not interfere *)

Section Locality.
Implicit Types (st : State) (j : Z) (user : string) (now : Z).

Lemma lock_local st1 st2 j user now :
  seats st1 !! j = seats st2 !! j →
  (snd <$> lock j user now st1) = (snd <$> lock j user now st2).
Proof.
  intros Heq. destruct (seats st2 !! j) as [seat|] eqn:Hs.
  - destruct (status seat) eqn:Hst.
    + by rewrite (lock_available st1 j seat), (lock_available st2 j seat).
    + destruct (expiredAt seat now) eqn:He.
      * by rewrite (lock_lapsed st1 j seat), (lock_lapsed st2 j seat).
      * by rewrite (lock_held st1 j seat), (lock_held st2 j seat).
    + by rewrite (lock_booked st1 j seat), (lock_booked st2 j seat).
  - by rewrite (lock_not_found st1), (lock_not_found st2).
Qed.

Lemma confirm_local st1 st2 j user now :
  seats st1 !! j = seats st2 !! j →
  (confirm j user now st1).2 = (confirm j user now st2).2.
Proof.
  intros Heq. unfold confirm. rewrite Heq.
  destruct (seats st2 !! j) as [seat|]; [|done]. repeat case_match; done.
Qed.

Lemma unlock_local st1 st2 j :
  seats st1 !! j = seats st2 !! j → (unlock j st1).2 = (unlock j st2).2.
Proof.
  intros Heq. unfold unlock. rewrite Heq.
  destruct (seats st2 !! j) as [seat|]; [|done]. destruct (status seat); done.
Qed.
End Locality.

(** X10.  Requests for one seat are not affected by events for another: after any
    event that is not addressed to seat [j], every [lock], [confirm] and
    [unlock] request for [j] gets the answer it would have got before the
    event. *)
Theorem seat_noninterference op st st' r j :
  exec op st = Some (st', r) → target op st ≠ Some j →
  ∀ user now,
    (snd <$> lock j user now st') = (snd <$> lock j user now st)
    ∧ (confirm j user now st').2 = (confirm j user now st).2
    ∧ (unlock j st').2 = (unlock j st).2.
Proof.
  intros Hex Ht user now. destruct (exec_frame _ _ _ _ Hex) as [_ Hfr].
  specialize (Hfr j Ht).
  split; [by apply lock_local|]. split; [by apply confirm_local|].
  by apply unlock_local.
Qed.

Lemma seat_noninterference_witness :
  (snd <$> lock 2 "B" 7 (acquired 1 "A" 0 initState))
  = (snd <$> lock 2 "B" 7 initState)
  ∧ (confirm 2 "B" 7 (acquired 1 "A" 0 initState)).2 = (confirm 2 "B" 7 initState).2
  ∧ (unlock 2 (acquired 1 "A" 0 initState)).2 = (unlock 2 initState).2.
Proof.
  apply (seat_noninterference (OpLock 1 "A" 0) initState
           (acquired 1 "A" 0 initState) (Some (okLocked 1)) 2);
    [vm_compute; reflexivity | discriminate].
Defined.

(** * Compositions *)

(** X11.  An abandoned lock is reclaimed by its timer.  In a reachable state, a
    lock taken on an available seat at the clock reading [t0] arms the timer
    [nextHandle st]; when that timer fires at [now ≥ t0 + LOCK_TTL] the seats
    and the pending timers are again those before the lock; when it fires at
    an earlier reading the seat keeps its lock and no timer remains pending
    for it. *)
Theorem scheduled_reclaim st id user t0 now seat :
  reachable st → seats st !! id = Some seat → status seat = Available →
  clockReading t0 →
  lock id user t0 st = Some (acquired id user t0 st, okLocked id)
  ∧ (t0 + LOCK_TTL ≤ now →
     fireTimer (nextHandle st) now (acquired id user t0 st)
     = Some (mkState (seats st) (timers st) (S (nextHandle st))))
  ∧ (now < t0 + LOCK_TTL →
     fireTimer (nextHandle st) now (acquired id user t0 st)
     = Some (mkState (seats (acquired id user t0 st)) (timers st)
               (S (nextHandle st)))).
Proof.
  intros Hr Hs Hst Hc.
  split; [by eapply lock_available|].
  assert (timers st !! nextHandle st = None) as Hfresh.
  { destruct (reachable_invariants _ Hr) as [_ Htm].
    destruct (timers st !! nextHandle st) as [t|] eqn:Ht; [|done].
    destruct (Htm _ _ Ht) as [Hlt _]. lia. }
  assert (delete (nextHandle st) (timers (acquired id user t0 st)) = timers st)
    as Hdel.
  { unfold acquired. cbn [timers]. by rewrite delete_insert_eq, delete_id. }
  unfold fireTimer. rewrite timers_acquired. cbn [timerSeat]. rewrite Hdel.
  erewrite expiryCallback_cases by (cbn [seats]; apply acquired_lookup).
  unfold lockedAndExpired. cbn [status]. rewrite bool_decide_eq_true_2 by done.
  cbn [andb]. split.
  - intros Hle. rewrite (expiredAt_true_le _ now (t0 + LOCK_TTL)); [|done| |done].
    + unfold setSeat, acquired. cbn [seats timers nextHandle].
      rewrite insert_insert_eq.
      rewrite (reachable_available st id seat Hr Hs Hst) in Hs.
      by rewrite (insert_id _ _ _ Hs).
    + unfold clockReading, LOCK_TTL in *. lia.
  - intros Hlt. by rewrite (expiredAt_false_lt _ now (t0 + LOCK_TTL)).
Qed.

Lemma scheduled_reclaim_witness :
  fireTimer 0%nat 60050 (acquired 1 "A" 0 initState)
  = Some (mkState (seats initState) (timers initState) 1%nat)
  ∧ fireTimer 0%nat 59999 (acquired 1 "A" 0 initState)
    = Some (mkState (seats (acquired 1 "A" 0 initState)) (timers initState) 1%nat).
Proof.
  destruct (scheduled_reclaim initState 1 "A" 0 60050 availableSeat)
    as (_ & Hlate & _);
    [apply reachable_init | vm_compute; reflexivity | reflexivity
    | unfold clockReading; lia |].
  destruct (scheduled_reclaim initState 1 "A" 0 59999 availableSeat)
    as (_ & _ & Hearly);
    [apply reachable_init | vm_compute; reflexivity | reflexivity
    | unfold clockReading; lia |].
  split.
  - apply Hlate. vm_compute. discriminate.
  - apply Hearly. reflexivity.
Defined.

(** X12.  A holder who confirms too late can start over: the late [confirm] is
    answered 408, a [lock] by the same caller at that instant is answered
    200, and a [confirm] within the new window books the seat. *)
Theorem late_holder_can_relock st id A t0 t t' :
  holdsLock st id A t0 → clockReading t0 →
  t0 + LOCK_TTL ≤ t → t' < t + LOCK_TTL →
  ∃ st1 st2 st3,
    confirm id A t st = (st1, mkResponse 408 (Message msgExpired))
    ∧ lock id A t st1 = Some (st2, okLocked id)
    ∧ confirm id A t' st2 = (st3, mkResponse 200 (Message (msgBooked id)))
    ∧ seats st3 !! id = Some bookedSeat.
Proof.
  intros Hh Hc Hle Hlt.
  destruct (holdsLock_lapsed _ _ _ _ _ Hh Hc Hle) as (seat & Hs & Hst & Hu & He).
  set (st1 := setSeat id availableSeat (clearSeatTimer id st)).
  set (st2 := acquired id A t st1).
  exists st1, st2, (setSeat id bookedSeat (clearSeatTimer id st2)).
  split; [by eapply confirm_lapsed|].
  split; [eapply lock_available; [apply release_lookup | done]|].
  split; [|apply release_lookup].
  pose proof (holdsLock_acquired st1 id A t) as Hh2.
  destruct (holdsLock_live _ _ _ _ _ Hh2 Hlt) as (seat2 & Hs2 & Hst2 & Hu2 & He2).
  by eapply confirm_owner.
Qed.

Lemma late_holder_can_relock_witness :
  ∃ st1 st2 st3,
    confirm 2 "C" 60001 (acquired 2 "C" 0 initState)
    = (st1, mkResponse 408 (Message msgExpired))
    ∧ lock 2 "C" 60001 st1 = Some (st2, okLocked 2)
    ∧ confirm 2 "C" 60002 st2 = (st3, mkResponse 200 (Message (msgBooked 2)))
    ∧ seats st3 !! 2 = Some bookedSeat.
Proof.
  apply (late_holder_can_relock (acquired 2 "C" 0 initState) 2 "C" 0 60001 60002).
  - exists (mkSeat Locked (Some "C") (Some 60000) (Some 0%nat)).
    repeat split; vm_compute; reflexivity.
  - unfold clockReading. lia.
  - vm_compute. discriminate.
  - reflexivity.
Defined.

(** X13.  An administrative unlock ends the holder's lock at once: after [unlock]
    of a locked seat every [confirm], the former holder's included, is
    answered 400 and changes nothing, and a [lock] by any caller at any
    clock reading is answered 200 and gives that caller the lock. *)
Theorem unlock_ends_lock st id seat :
  seats st !! id = Some seat → status seat = Locked →
  ∃ st1,
    unlock id st = (st1, mkResponse 200 (Message (msgCleared id)))
    ∧ (∀ user now,
         confirm id user now st1 = (st1, mkResponse 400 (Message msgNotLocked)))
    ∧ (∀ user now,
         ∃ st2, lock id user now st1 = Some (st2, okLocked id)
                ∧ holdsLock st2 id user now).
Proof.
  intros Hs Hst. exists (setSeat id availableSeat (clearSeatTimer id st)).
  split; [by eapply unlock_locked|]. split.
  - intros user now. eapply confirm_not_locked; [apply release_lookup | done].
  - intros user now. eexists. split.
    + eapply lock_available; [apply release_lookup | done].
    + apply holdsLock_acquired.
Qed.

Lemma unlock_ends_lock_witness :
  ∃ st1,
    unlock 1 (acquired 1 "A" 0 initState)
    = (st1, mkResponse 200 (Message (msgCleared 1)))
    ∧ confirm 1 "A" 5 st1 = (st1, mkResponse 400 (Message msgNotLocked))
    ∧ ∃ st2, lock 1 "B" 6 st1 = Some (st2, okLocked 1).
Proof.
  destruct (unlock_ends_lock (acquired 1 "A" 0 initState) 1
              (mkSeat Locked (Some "A") (Some 60000) (Some 0%nat)))
    as (st1 & Hu & Hc & Hl); [vm_compute; reflexivity | reflexivity |].
  exists st1. split; [exact Hu|]. split; [apply Hc|].
  destruct (Hl "B" 6) as (st2 & Hl2 & _). by exists st2.
Defined.

(** X14.  The expiry test reads an expiry instant of 0 as no expiry.  A lock taken
    at the clock reading [-LOCK_TTL] stores the instant 0, and a locked
    record with that instant never lapses: at every clock reading [lock] is
    answered 423, the timer callback changes nothing, and [confirm] goes on
    to the owner test (403 for another caller, 200 for the holder). *)
Theorem zero_expiry_never_lapses :
  (∀ st1 id user,
     seats (acquired id user (- LOCK_TTL) st1) !! id
     = Some (mkSeat Locked (Some user) (Some 0) (Some (nextHandle st1))))
  ∧ (∀ st id seat,
       seats st !! id = Some seat → status seat = Locked →
       lockExpiresAt seat = Some 0 →
       (∀ user now,
          lock id user now st
          = Some (st, mkResponse 423 (Message (msgAlreadyLocked id))))
       ∧ (∀ now, expiryCallback id now st = Some st)
       ∧ (∀ user now,
            lockedBy seat ≠ Some user →
            confirm id user now st = (st, mkResponse 403 (Message msgForbidden)))
       ∧ (∀ user now,
            lockedBy seat = Some user →
            confirm id user now st
            = (setSeat id bookedSeat (clearSeatTimer id st),
               mkResponse 200 (Message (msgBooked id))))).
Proof.
  split.
  - intros st1 id user. rewrite acquired_lookup. do 3 f_equal.
  - intros st id seat Hs Hst He.
    assert (∀ now, expiredAt seat now = false) as Hx
      by (intros now; unfold expiredAt; by rewrite He).
    split; [|split; [|split]].
    + intros user now. by eapply lock_held.
    + intros now. rewrite (expiryCallback_cases _ _ _ _ Hs).
      unfold lockedAndExpired. rewrite Hx. by rewrite andb_false_r.
    + intros user now Hu. by eapply confirm_forbidden.
    + intros user now Hu. by eapply confirm_owner.
Qed.

Lemma zero_expiry_never_lapses_witness :
  lock 1 "B" 999999999 (acquired 1 "A" (- LOCK_TTL) initState)
  = Some (acquired 1 "A" (- LOCK_TTL) initState,
          mkResponse 423 (Message (msgAlreadyLocked 1)))
  ∧ expiryCallback 1 999999999 (acquired 1 "A" (- LOCK_TTL) initState)
    = Some (acquired 1 "A" (- LOCK_TTL) initState).
Proof.
  destruct zero_expiry_never_lapses as [H1 H2].
  destruct (H2 (acquired 1 "A" (- LOCK_TTL) initState) 1
              (mkSeat Locked (Some "A") (Some 0) (Some 0%nat)))
    as (Hl & Hf & _); [apply (H1 initState 1 "A") | reflexivity | reflexivity |].
  split; [apply Hl | apply Hf].
Defined.

(** X15.  In every reachable state [GET /seats] answers 200 with a view that has
    one entry for each id in 1..TOTAL_SEATS and no other, the entry being the
    stored status of the seat. *)
Theorem listing_covers_all_seats st :
  reachable st →
  ∃ v, listSeats st = (st, mkResponse 200 (View v))
       ∧ (∀ id, is_Some (v !! id) ↔ 1 ≤ id ≤ TOTAL_SEATS)
       ∧ (∀ id, v !! id = statusOf st id)
       ∧ size v = Z.to_nat TOTAL_SEATS.
Proof.
  intros Hr. exists (status <$> seats st). split; [done|].
  assert (dom (status <$> seats st) = dom initSeats) as Hdom
    by (rewrite dom_fmap_L; by apply reachable_dom).
  split; [|split].
  - intros id. rewrite <- elem_of_dom, Hdom, elem_of_dom, initSeats_lookup.
    case_decide; split; try done; try (by intros [? ?]); eauto.
  - intros id. unfold statusOf. apply lookup_fmap.
  - rewrite <- size_dom, Hdom. vm_compute. reflexivity.
Qed.

Lemma listing_covers_all_seats_witness :
  ∃ v, listSeats (acquired 1 "A" 0 initState)
       = (acquired 1 "A" 0 initState, mkResponse 200 (View v))
       ∧ v !! 1 = Some Locked ∧ v !! 2 = Some Available ∧ v !! 11 = None.
Proof.
  destruct (listing_covers_all_seats (acquired 1 "A" 0 initState))
    as (v & Hl & _ & Hv & _).
  - apply (reachable_step initState (OpLock 1 "A" 0) _ (Some (okLocked 1)));
      [apply reachable_init | vm_compute; reflexivity].
  - exists v. split; [exact Hl|]. rewrite !Hv. repeat split; vm_compute; reflexivity.
Defined.

(** X16.  Callers that send no [user], an empty [user] or the text "anonymous"
    are one caller: a lock taken without a [user] on an available seat is
    confirmed, within its window, by any request of these three kinds. *)
Theorem anonymous_callers_share_identity st id seat t0 t q :
  seats st !! id = Some seat → status seat = Available →
  t < t0 + LOCK_TTL →
  q = None ∨ q = Some "" ∨ q = Some "anonymous" →
  ∃ st1 st2,
    lock id (requestUser None) t0 st = Some (st1, okLocked id)
    ∧ confirm id (requestUser q) t st1
      = (st2, mkResponse 200 (Message (msgBooked id)))
    ∧ seats st2 !! id = Some bookedSeat.
Proof.
  intros Hs Hst Hlt Hq.
  assert (requestUser q = requestUser None) as ->
    by (destruct Hq as [->|[->| ->]]; reflexivity).
  set (st1 := acquired id (requestUser None) t0 st).
  exists st1, (setSeat id bookedSeat (clearSeatTimer id st1)).
  split; [by eapply lock_available|]. split; [|apply release_lookup].
  pose proof (holdsLock_acquired st id (requestUser None) t0) as Hh.
  destruct (holdsLock_live _ _ _ _ _ Hh Hlt) as (seat1 & Hs1 & Hst1 & Hu1 & He1).
  by eapply confirm_owner.
Qed.

Lemma anonymous_callers_share_identity_witness :
  ∃ st1 st2,
    lock 3 (requestUser None) 0 initState = Some (st1, okLocked 3)
    ∧ confirm 3 (requestUser (Some "")) 100 st1
      = (st2, mkResponse 200 (Message (msgBooked 3)))
    ∧ seats st2 !! 3 = Some bookedSeat.
Proof.
  apply (anonymous_callers_share_identity initState 3 availableSeat 0 100 (Some ""));
    [vm_compute; reflexivity | reflexivity | reflexivity | right; left; reflexivity].
Defined.
